(** * Tetris: the game-state reducer of [src/main.ts]

    A shallow embedding of the state-processing part of [main.ts]
    (block factory, move validation, stacking, row clearing, game over,
    the [scan] reducer of [source$]) and the properties of its
    specification.

    Modelling conventions.
    - A JavaScript [number] that holds an integer (coordinates, cells, score,
      level) is a [Z]; the program only adds and subtracts small constants,
      which is exact on doubles below 2^53.
    - The one place where a fractional double occurs is [Math.random()];
      module [Double] writes out the binary64 rounding of the product
      [Math.random() * n] and [Math.floor].
    - Arrays are lists.  Reading a property of [undefined] (a missing row)
      throws a [TypeError] in JavaScript: result [TypeError].  A write
      outside the index range of a row, or a dangling block reference, has
      no counterpart in the list model: result [OffModel].
    - [Block] objects are mutated in place by the reducer and are shared
      between the running state and [initialStateWithNextShape], so they
      live in a store ([heap]) and the state holds references to them.
      The board array is replaced by a fresh one in [restartGame] and is
      only ever reached through the current state, so it is held by value.
    - The function [tick] of [main.ts] is never called (the reducer repeats
      its body) and the rendering functions do not take part in the state
      transitions; they are not embedded. *)

From Stdlib Require Import ZArith List Bool Lia.
From Stdlib Require String DecimalString.
From stdpp Require Import base list.
Import ListNotations.
Import String.StringSyntax.
#[local] Delimit Scope string_scope with string.

#[local] Open Scope Z_scope.

(** ** Outcomes of a computation *)

Inductive result (A : Type) : Type :=
| Ok (a : A)
| TypeError
| OffModel.

Arguments Ok {A} a.
Arguments TypeError {A}.
Arguments OffModel {A}.

Definition bind {A B : Type} (m : result A) (k : A -> result B) : result B :=
  match m with
  | Ok a => k a
  | TypeError => TypeError
  | OffModel => OffModel
  end.

Notation "'let*' v := m 'in' k" := (bind m (fun v => k))
  (at level 10, v name, m at level 100, k at level 200).

(** ** Constants *)

Module Constants.
Definition TICK_RATE_MS : Z := 500.
Definition GRID_WIDTH : Z := 10.
Definition GRID_HEIGHT : Z := 20.
End Constants.

(** ** Doubles in the unit interval

    A non-negative binary64 value below 2^1024 is an integer multiple of
    2^-1074 whose numerator has at most 53 significant bits.  A value [v : Z]
    of this module stands for the double [v * 2^-1074]. *)

Module Double.

Definition scale : Z := 2 ^ 1074.

(** The doubles [Math.random()] can return: 0 <= r < 1, the largest one
    being 1 - 2^-53. *)
Definition unit_interval (r : Z) : Prop :=
  0 <= r <= 2 ^ 1074 - 2 ^ 1021.

(** Round a numerator to 53 significant bits, ties to even. *)
Definition round (p : Z) : Z :=
  let k := Z.log2 p - 52 in
  if k <=? 0 then p
  else
    let q := p / 2 ^ k in
    let rem := p mod 2 ^ k in
    let half := 2 ^ (k - 1) in
    if (half <? rem) || ((rem =? half) && Z.odd q)
    then (q + 1) * 2 ^ k
    else q * 2 ^ k.

(** [r * n] for a double [r] and an integer-valued double [n]. *)
Definition mul_int (r n : Z) : Z := round (r * n).

(** [Math.floor] of a non-negative double. *)
Definition floor (v : Z) : Z := v / scale.

(** The double [a / 2^k]. *)
Definition dyadic (a k : Z) : Z := a * 2 ^ (1074 - k).

End Double.

(** ** Blocks *)

Record Block : Type := mkBlock {
  shape : list (list Z);
  x : Z;
  y : Z
}.

Definition blockTypes : list (list (list Z)) :=
  [ [[1; 1]; [1; 1]];
    [[1; 1; 1; 1]];
    [[0; 1; 0]; [1; 1; 1]];
    [[1; 0]; [1; 0]; [1; 1]];
    [[0; 1]; [0; 1]; [1; 1]];
    [[0; 1; 1]; [1; 1; 0]];
    [[1; 1; 0]; [0; 1; 1]] ].

(** [arr[i]] for an index computed as a number. *)
Definition index {A : Type} (arr : list A) (i : Z) : option A :=
  if i <? 0 then None else arr !! Z.to_nat i.

(** [createRandomBlock()], given the two values its calls of
    [Math.random()] return. *)
Definition createRandomBlock (r1 r2 : Z) : result Block :=
  match index blockTypes
          (Double.floor (Double.mul_int r1 (Z.of_nat (length blockTypes)))) with
  | None => TypeError
  | Some randomBlockType =>
      match index randomBlockType 0 with
      | None => TypeError
      | Some row0 =>
          let randomX :=
            Double.floor
              (Double.mul_int r2
                 (Constants.GRID_WIDTH - Z.of_nat (length row0) + 1)) in
          Ok {| shape := randomBlockType; x := randomX; y := 0 |}
      end
  end.

(** ** Game state *)

Record State : Type := mkState {
  gameEnd : bool;
  gameBoard : list (list Z);
  currentBlock : nat;
  nextBlock : nat;
  nextBlockShape : list (list Z);
  score : Z;
  canRestart : bool;
  highScore : Z;
  level : Z
}.

(** [{ ...s, field: v }] *)
Definition set_gameEnd (v : bool) (s : State) : State :=
  mkState v (gameBoard s) (currentBlock s) (nextBlock s) (nextBlockShape s)
    (score s) (canRestart s) (highScore s) (level s).
Definition set_gameBoard (v : list (list Z)) (s : State) : State :=
  mkState (gameEnd s) v (currentBlock s) (nextBlock s) (nextBlockShape s)
    (score s) (canRestart s) (highScore s) (level s).
Definition set_currentBlock (v : nat) (s : State) : State :=
  mkState (gameEnd s) (gameBoard s) v (nextBlock s) (nextBlockShape s)
    (score s) (canRestart s) (highScore s) (level s).
Definition set_nextBlock (v : nat) (s : State) : State :=
  mkState (gameEnd s) (gameBoard s) (currentBlock s) v (nextBlockShape s)
    (score s) (canRestart s) (highScore s) (level s).
Definition set_nextBlockShape (v : list (list Z)) (s : State) : State :=
  mkState (gameEnd s) (gameBoard s) (currentBlock s) (nextBlock s) v
    (score s) (canRestart s) (highScore s) (level s).
Definition set_score (v : Z) (s : State) : State :=
  mkState (gameEnd s) (gameBoard s) (currentBlock s) (nextBlock s)
    (nextBlockShape s) v (canRestart s) (highScore s) (level s).
Definition set_canRestart (v : bool) (s : State) : State :=
  mkState (gameEnd s) (gameBoard s) (currentBlock s) (nextBlock s)
    (nextBlockShape s) (score s) v (highScore s) (level s).
Definition set_highScore (v : Z) (s : State) : State :=
  mkState (gameEnd s) (gameBoard s) (currentBlock s) (nextBlock s)
    (nextBlockShape s) (score s) (canRestart s) v (level s).
Definition set_level (v : Z) (s : State) : State :=
  mkState (gameEnd s) (gameBoard s) (currentBlock s) (nextBlock s)
    (nextBlockShape s) (score s) (canRestart s) (highScore s) v.

(** The store of [Block] objects, the accumulator of [scan], and the number
    of calls of [Math.random()] made so far. *)
Record World : Type := mkWorld {
  heap : list Block;
  state : State;
  draws : nat
}.

Definition deref (h : list Block) (r : nat) : result Block :=
  match h !! r with
  | Some b => Ok b
  | None => OffModel
  end.

Definition alloc (h : list Block) (b : Block) : list Block * nat :=
  (h ++ [b], length h).

(** ** Array methods with an index argument *)

(** [arr.every((elem, i) => f elem i)], stopping at the first [false]. *)
Fixpoint every_from {A : Type} (f : A -> Z -> result bool) (arr : list A)
    (i : Z) : result bool :=
  match arr with
  | [] => Ok true
  | a :: rest =>
      let* b := f a i in
      if b then every_from f rest (i + 1) else Ok false
  end.

Definition every {A : Type} (f : A -> Z -> result bool) (arr : list A) :
    result bool :=
  every_from f arr 0.

(** [arr.forEach((elem, i) => ...)] where the callback updates [acc]. *)
Fixpoint forEach_from {A St : Type} (f : St -> A -> Z -> result St)
    (arr : list A) (i : Z) (acc : St) : result St :=
  match arr with
  | [] => Ok acc
  | a :: rest =>
      let* acc' := f acc a i in
      forEach_from f rest (i + 1) acc'
  end.

Definition forEach {A St : Type} (f : St -> A -> Z -> result St)
    (arr : list A) (acc : St) : result St :=
  forEach_from f arr 0 acc.

(** ** Move validation *)

(** [gameBoard[boardY][boardX] === 0], reached with [boardY >= 0] and
    [boardX >= 0]: a missing row throws, a missing cell is [undefined]. *)
Definition cellIsZero (gameBoard : list (list Z)) (boardY boardX : Z) :
    result bool :=
  match index gameBoard boardY with
  | None => TypeError
  | Some row =>
      match index row boardX with
      | Some cell => Ok (cell =? 0)
      | None => Ok false
      end
  end.

Definition validCells (gameBoard : list (list Z)) (b : Block)
    (deltaX deltaY : Z) : result bool :=
  every (fun row rowIndex =>
    every (fun cell colIndex =>
      if cell =? 1 then
        let boardX := x b + colIndex + deltaX in
        let boardY := y b + rowIndex + deltaY in
        if (boardX >=? 0) && (boardX <? Constants.GRID_WIDTH)
           && (boardY <? Constants.GRID_HEIGHT)
        then if boardY <? 0 then Ok true
             else cellIsZero gameBoard boardY boardX
        else Ok false
      else Ok true) row) (shape b).

Definition isValidMove (h : list Block) (s : State) (deltaX deltaY : Z) :
    result bool :=
  let* b := deref h (currentBlock s) in
  validCells (gameBoard s) b deltaX deltaY.

(** ** Stacking *)

(** [gameBoard[boardY][boardX] = 1], reached with [boardY >= 0]. *)
Definition setCell (gameBoard : list (list Z)) (boardY boardX : Z) :
    result (list (list Z)) :=
  match index gameBoard boardY with
  | None => TypeError
  | Some row =>
      match index row boardX with
      | None => OffModel
      | Some _ =>
          Ok (<[Z.to_nat boardY := <[Z.to_nat boardX := 1]> row]> gameBoard)
      end
  end.

(** [stackBlock(gameBoard, currentBlock, state)]: the board is updated in
    place and a copy of [state] with the score incremented is returned.  At
    its call sites [gameBoard] is [state.gameBoard], which the copy shares. *)
Definition stackBlock (gameBoard : list (list Z)) (b : Block) (s : State) :
    result (list (list Z) * State) :=
  let* board :=
    forEach (fun board row rowIdx =>
      forEach (fun board cell colIdx =>
        if cell =? 1 then
          let boardX := x b + colIdx in
          let boardY := y b + rowIdx in
          if boardY >=? 0 then setCell board boardY boardX else Ok board
        else Ok board) row board) (shape b) gameBoard in
  let newState := set_gameBoard board s in
  Ok (board, set_score (score newState + 1) newState).

(** ** Game over *)

Definition isGameOver (gameBoard : list (list Z)) : result bool :=
  match index gameBoard 0 with
  | None => TypeError
  | Some row0 => Ok (existsb (fun cell => cell =? 1) row0)
  end.

(** ** Clearing rows *)

(** [arr.splice(start, 1)] *)
Definition splice1 {A : Type} (start : Z) (arr : list A) : list A :=
  let len := Z.of_nat (length arr) in
  let actualStart :=
    if start <? 0 then Z.max (len + start) 0 else Z.min start len in
  delete (Z.to_nat actualStart) arr.

Definition isFullRow (row : list Z) : bool :=
  forallb (fun cell => cell =? 1) row.

Definition emptyRow : list Z :=
  repeat 0 (Z.to_nat Constants.GRID_WIDTH).

(** The body of the callback of the clearing loop for a full row at
    position [yy] of the reversed copy. *)
Definition clearRow (s : State) (yy : Z) : State :=
  let board := splice1 (Constants.GRID_HEIGHT - 1 - yy) (gameBoard s) in
  let board := emptyRow :: board in
  let s := set_gameBoard board s in
  let s := set_score (score s + 10) s in
  set_level (level s + 1) s.

(** [state.gameBoard.slice().reverse().forEach((row, y) => ...)]: the rows
    visited are those of the copy, the board spliced is the live one. *)
Fixpoint clearLoop (rows : list (list Z)) (yy : Z) (s : State) : State :=
  match rows with
  | [] => s
  | row :: rest =>
      clearLoop rest (yy + 1) (if isFullRow row then clearRow s yy else s)
  end.

Definition clearFullRows (s : State) : State :=
  clearLoop (rev (gameBoard s)) 0 s.

(** ** The reducer *)

Inductive Code : Type := KeyA | KeyD | KeyS | KeyR.

(** An element of [merge(key$, tick$)]; the number carried by an interval
    tick is not used by the reducer. *)
Inductive Event : Type :=
| KeyboardEvent (code : Code)
| Tick.

Definition emptyBoard : list (list Z) :=
  repeat emptyRow (Z.to_nat Constants.GRID_HEIGHT).

(** [{ ...b, y: v }] *)
Definition set_y (v : Z) (b : Block) : Block :=
  {| shape := shape b; x := x b; y := v |}.

Section Reducer.

(** [random i] is the value returned by the [i]-th call of [Math.random()]. *)
Variable random : nat -> Z.

(** The module-level [initialState]: its two blocks are the first two
    objects of the store. *)
Definition initialState : result (list Block * State) :=
  let* b0 := createRandomBlock (random 0) (random 1) in
  let* b1 := createRandomBlock (random 2) (random 3) in
  Ok ([b0; b1],
      {| gameEnd := false;
         gameBoard := emptyBoard;
         currentBlock := 0%nat;
         nextBlock := 1%nat;
         nextBlockShape := [];
         score := 0;
         canRestart := false;
         highScore := 0;
         level := 1 |}).

(** [initialStateWithNextShape], a constant of [main]: the same store, and
    a copy of [initialState] that shares its two blocks. *)
Definition initialStateWithNextShape : result (list Block * State) :=
  let* i := initialState in
  let* nb := deref (fst i) (nextBlock (snd i)) in
  Ok (fst i, set_nextBlockShape (shape nb) (snd i)).

(** The seed of [scan]. *)
Definition main : result World :=
  let* i := initialStateWithNextShape in
  Ok {| heap := fst i; state := snd i; draws := 4 |}.

(** [restartGame()]: a copy of the constant [initialStateWithNextShape] with
    a new board; the two block references are those of the constant. *)
Definition restartGame : result State :=
  let* i := initialStateWithNextShape in
  Ok (set_gameBoard emptyBoard (snd i)).

(** [state.currentBlock.x += dx; state.currentBlock.y += dy] *)
Definition moveCurrent (w : World) (dx dy : Z) : result World :=
  let* b := deref (heap w) (currentBlock (state w)) in
  Ok {| heap := <[currentBlock (state w) :=
                    {| shape := shape b; x := x b + dx; y := y b + dy |}]>
                (heap w);
        state := state w;
        draws := draws w |}.

(** The function folded by [scan].  The copy [updatedBlock] becomes an object
    of the store where it is stored in the returned state; the copy returned
    by [stackBlock] is dropped, as in the source. *)
Definition reducer (w : World) (event : Event) : result World :=
  let s := state w in
  match event with
  | KeyboardEvent KeyA =>
      let* valid := isValidMove (heap w) s (-1) 0 in
      if valid then moveCurrent w (-1) 0 else Ok w
  | KeyboardEvent KeyD =>
      let* valid := isValidMove (heap w) s 1 0 in
      if valid then moveCurrent w 1 0 else Ok w
  | KeyboardEvent KeyS =>
      let* valid := isValidMove (heap w) s 0 1 in
      if valid then moveCurrent w 0 1 else Ok w
  | KeyboardEvent KeyR =>
      if canRestart s then
        let updatedHighScore :=
          if score s >? highScore s then score s else highScore s in
        if gameEnd s then
          let* fresh := restartGame in
          Ok {| heap := heap w;
                state := set_highScore updatedHighScore
                           (set_canRestart false fresh);
                draws := draws w |}
        else Ok w
      else Ok w
  | Tick =>
      if gameEnd s then Ok w
      else
        let* cur := deref (heap w) (currentBlock s) in
        let updatedBlock := set_y (y cur + 1) cur in
        let* valid := isValidMove (heap w) s 0 1 in
        if negb valid then
          let* stacked := stackBlock (gameBoard s) cur s in
          let s := set_gameBoard (fst stacked) s in
          let* over := isGameOver (gameBoard s) in
          let s := if negb over then set_score (score s + 1) s else s in
          let s := clearFullRows s in
          if over then
            let updatedHighScore :=
              if score s >? highScore s then score s else highScore s in
            Ok {| heap := heap w;
                  state := set_highScore updatedHighScore
                             (set_canRestart true (set_gameEnd over s));
                  draws := draws w |}
          else
            let newBlock := nextBlock s in
            let* newNextBlock :=
              createRandomBlock (random (draws w)) (random (S (draws w))) in
            let a := alloc (heap w) newNextBlock in
            Ok {| heap := fst a;
                  state := set_nextBlockShape (shape newNextBlock)
                             (set_nextBlock (snd a)
                                (set_currentBlock newBlock s));
                  draws := S (S (draws w)) |}
        else
          let a := alloc (heap w) updatedBlock in
          Ok {| heap := fst a;
                state := set_currentBlock (snd a) s;
                draws := draws w |}
  end.

(** Folding the reducer over a sequence of events, as [scan] does. *)
Fixpoint run (events : list Event) (w : World) : result World :=
  match events with
  | [] => Ok w
  | e :: rest => let* w' := reducer w e in run rest w'
  end.

Inductive reachable : World -> Prop :=
| reach_main w : main = Ok w -> reachable w
| reach_step w e w' : reachable w -> reducer w e = Ok w' -> reachable w'.

End Reducer.

(** ** Notions used to state the properties *)

(** The board after the current block has been stacked onto it. *)
Definition lockedBoard (h : list Block) (s : State) :
    result (list (list Z)) :=
  let* cur := deref h (currentBlock s) in
  let* stacked := stackBlock (gameBoard s) cur s in
  Ok (fst stacked).

(** The number of full rows of a board. *)
Definition fullRowCount (board : list (list Z)) : Z :=
  Z.of_nat (length (List.filter isFullRow board)).

(** The block a state's [currentBlock] refers to. *)
Definition activeBlock (w : World) : option Block :=
  heap w !! currentBlock (state w).

(** The state the landing branch of a tick has computed before its two
    returns, from the stacked board and the game-over flag. *)
Definition landed (s : State) (board : list (list Z)) (over : bool) : State :=
  let s := set_gameBoard board s in
  let s := if negb over then set_score (score s + 1) s else s in
  clearFullRows s.

(** A board of GRID_HEIGHT rows of GRID_WIDTH cells. *)
Definition boardOk (board : list (list Z)) : Prop :=
  length board = Z.to_nat Constants.GRID_HEIGHT
  /\ Forall (fun row => length row = Z.to_nat Constants.GRID_WIDTH) board.

(** A block at or below row 0 whose occupied cells are inside the grid. *)
Definition blockOk (b : Block) : Prop :=
  0 <= y b
  /\ forall (rowIndex colIndex : nat) row,
       shape b !! rowIndex = Some row ->
       row !! colIndex = Some 1 ->
       0 <= x b + Z.of_nat colIndex < Constants.GRID_WIDTH
       /\ y b + Z.of_nat rowIndex < Constants.GRID_HEIGHT.

(** The invariant of the worlds the program reaches: the board has its
    dimensions, every block of the store is inside the grid, and the
    references of the state (and of the initial state, 0 and 1) are
    allocated. *)
Definition worldOk (w : World) : Prop :=
  boardOk (gameBoard (state w))
  /\ Forall blockOk (heap w)
  /\ (currentBlock (state w) < length (heap w))%nat
  /\ (nextBlock (state w) < length (heap w))%nat
  /\ (2 <= length (heap w))%nat.

(** ** The specification's clearing step *)

Module Spec.

(** Following the specification of [resolveClears]: find every full row,
    remove them all at once, insert an equal number of empty rows at the
    top, keep the other rows in their order; return the new grid and the
    number of rows cleared. *)
Definition resolveClears (grid : list (list Z)) : list (list Z) * nat :=
  let kept := List.filter (fun row => negb (isFullRow row)) grid in
  let cleared := (length grid - length kept)%nat in
  (repeat emptyRow cleared ++ kept, cleared).

End Spec.

(** ** Concrete games *)

(** The values of [Math.random()] given by a list, then 0 forever. *)
Definition stream (values : list Z) : nat -> Z :=
  fun i => nth i values 0.

(** Soft drops followed by the tick that locks the block. *)
Definition softDrops (n : nat) : list Event :=
  repeat (KeyboardEvent KeyS) n ++ [Tick].

(** The world reached from the program's start by a sequence of events. *)
Definition play (random : nat -> Z) (events : list Event) : result World :=
  let* w := main random in run random events w.

(** Game 1: every block is the square at column 0. *)
Definition squares : nat -> Z := fun _ => 0.

Definition squaresStart : World :=
  {| heap := [ {| shape := [[1; 1]; [1; 1]]; x := 0; y := 0 |};
               {| shape := [[1; 1]; [1; 1]]; x := 0; y := 0 |} ];
     state := {| gameEnd := false;
                 gameBoard := emptyBoard;
                 currentBlock := 0%nat;
                 nextBlock := 1%nat;
                 nextBlockShape := [[1; 1]; [1; 1]];
                 score := 0;
                 canRestart := false;
                 highScore := 0;
                 level := 1 |};
     draws := 4 |}.

(** The first square has been dropped to the floor. *)
Definition squaresDropped : World :=
  {| heap := [ {| shape := [[1; 1]; [1; 1]]; x := 0; y := 18 |};
               {| shape := [[1; 1]; [1; 1]]; x := 0; y := 0 |} ];
     state := state squaresStart;
     draws := 4 |}.

(** Nine squares are stacked in columns 0 and 1; the tenth sits on them in
    rows 0 and 1. *)
Definition squaresPiled : list Event :=
  softDrops 18 ++ softDrops 16 ++ softDrops 14 ++ softDrops 12
  ++ softDrops 10 ++ softDrops 8 ++ softDrops 6 ++ softDrops 4
  ++ softDrops 2.

Definition squaresHeap : list Block :=
  [ {| shape := [[1; 1]; [1; 1]]; x := 0; y := 18 |};
       {| shape := [[1; 1]; [1; 1]]; x := 0; y := 16 |};
       {| shape := [[1; 1]; [1; 1]]; x := 0; y := 14 |};
       {| shape := [[1; 1]; [1; 1]]; x := 0; y := 12 |};
       {| shape := [[1; 1]; [1; 1]]; x := 0; y := 10 |};
       {| shape := [[1; 1]; [1; 1]]; x := 0; y := 8 |};
       {| shape := [[1; 1]; [1; 1]]; x := 0; y := 6 |};
       {| shape := [[1; 1]; [1; 1]]; x := 0; y := 4 |};
       {| shape := [[1; 1]; [1; 1]]; x := 0; y := 2 |};
       {| shape := [[1; 1]; [1; 1]]; x := 0; y := 0 |};
       {| shape := [[1; 1]; [1; 1]]; x := 0; y := 0 |} ].

Definition squaresTopped : World :=
  {| heap := squaresHeap;
     state := {| gameEnd := false;
                 gameBoard :=
                   repeat emptyRow 2
                   ++ repeat [1; 1; 0; 0; 0; 0; 0; 0; 0; 0] 18;
                 currentBlock := 9%nat;
                 nextBlock := 10%nat;
                 nextBlockShape := [[1; 1]; [1; 1]];
                 score := 9;
                 canRestart := false;
                 highScore := 0;
                 level := 1 |};
     draws := 22 |}.

(** The tick that locks the tenth square ends the game. *)
Definition squaresOver : World :=
  {| heap := squaresHeap;
     state := {| gameEnd := true;
                 gameBoard := repeat [1; 1; 0; 0; 0; 0; 0; 0; 0; 0] 20;
                 currentBlock := 9%nat;
                 nextBlock := 10%nat;
                 nextBlockShape := [[1; 1]; [1; 1]];
                 score := 9;
                 canRestart := true;
                 highScore := 9;
                 level := 1 |};
     draws := 22 |}.

(** Game 2: four lines fill columns 0 to 7 of the two bottom rows, then a
    square is dropped into columns 8 and 9. *)
Definition twoRowsRandom : nat -> Z :=
  stream [ Double.dyadic 1 2; 0;
           Double.dyadic 1 2; Double.dyadic 5 3;
           Double.dyadic 1 2; 0;
           Double.dyadic 1 2; Double.dyadic 5 3;
           0; Double.dyadic 15 4 ].

Definition twoRowsEvents : list Event :=
  softDrops 19 ++ softDrops 19 ++ softDrops 18 ++ softDrops 18
  ++ repeat (KeyboardEvent KeyS) 18.

Definition twoRowsWorld : World :=
  {| heap := [ {| shape := [[1; 1; 1; 1]]; x := 0; y := 19 |};
       {| shape := [[1; 1; 1; 1]]; x := 4; y := 19 |};
       {| shape := [[1; 1; 1; 1]]; x := 0; y := 18 |};
       {| shape := [[1; 1; 1; 1]]; x := 4; y := 18 |};
       {| shape := [[1; 1]; [1; 1]]; x := 8; y := 18 |};
       {| shape := [[1; 1]; [1; 1]]; x := 0; y := 0 |} ];
     state := {| gameEnd := false;
                 gameBoard :=
                   repeat emptyRow 18
                   ++ [ [1; 1; 1; 1; 1; 1; 1; 1; 0; 0];
                        [1; 1; 1; 1; 1; 1; 1; 1; 0; 0] ];
                 currentBlock := 4%nat;
                 nextBlock := 5%nat;
                 nextBlockShape := [[1; 1]; [1; 1]];
                 score := 4;
                 canRestart := false;
                 highScore := 0;
                 level := 1 |};
     draws := 12 |}.

(** The board of [twoRowsWorld] once the square is stacked. *)
Definition twoRowsLocked : list (list Z) :=
  repeat emptyRow 18 ++ [ repeat 1 10; repeat 1 10 ].

(** Game 3: a tower of eight squares, four lines resting on it in rows 3, 2
    and 1, and an S block that completes row 1 while reaching row 0. *)
Definition sBlockRandom : nat -> Z :=
  stream (repeat 0 16
          ++ [ Double.dyadic 1 2; 0;
               Double.dyadic 1 2; Double.dyadic 1 1;
               Double.dyadic 1 2; 0;
               Double.dyadic 1 2; Double.dyadic 7 3;
               Double.dyadic 3 2; Double.dyadic 1 1 ]).

Definition sBlockEvents : list Event :=
  softDrops 18 ++ softDrops 16 ++ softDrops 14 ++ softDrops 12
  ++ softDrops 10 ++ softDrops 8 ++ softDrops 6 ++ softDrops 4
  ++ softDrops 3 ++ softDrops 2 ++ softDrops 1 ++ softDrops 1 ++ [Tick].

Definition sBlockOver : World :=
  {| heap := [ {| shape := [[1; 1]; [1; 1]]; x := 0; y := 18 |};
       {| shape := [[1; 1]; [1; 1]]; x := 0; y := 16 |};
       {| shape := [[1; 1]; [1; 1]]; x := 0; y := 14 |};
       {| shape := [[1; 1]; [1; 1]]; x := 0; y := 12 |};
       {| shape := [[1; 1]; [1; 1]]; x := 0; y := 10 |};
       {| shape := [[1; 1]; [1; 1]]; x := 0; y := 8 |};
       {| shape := [[1; 1]; [1; 1]]; x := 0; y := 6 |};
       {| shape := [[1; 1]; [1; 1]]; x := 0; y := 4 |};
       {| shape := [[1; 1; 1; 1]]; x := 0; y := 3 |};
       {| shape := [[1; 1; 1; 1]]; x := 3; y := 2 |};
       {| shape := [[1; 1; 1; 1]]; x := 0; y := 1 |};
       {| shape := [[1; 1; 1; 1]]; x := 6; y := 1 |};
       {| shape := [[0; 1; 1]; [1; 1; 0]]; x := 4; y := 0 |};
       {| shape := [[1; 1]; [1; 1]]; x := 0; y := 0 |} ];
     state := {| gameEnd := true;
                 gameBoard :=
                   [ emptyRow;
                     [0; 0; 0; 0; 0; 1; 1; 0; 0; 0];
                     [0; 0; 0; 1; 1; 1; 1; 0; 0; 0];
                     [1; 1; 1; 1; 0; 0; 0; 0; 0; 0] ]
                   ++ repeat [1; 1; 0; 0; 0; 0; 0; 0; 0; 0] 16;
                 currentBlock := 12%nat;
                 nextBlock := 13%nat;
                 nextBlockShape := [[1; 1]; [1; 1]];
                 score := 22;
                 canRestart := true;
                 highScore := 22;
                 level := 2 |};
     draws := 28 |}.

(** ** Further code of [main.ts] *)

(** The cell of a board at a row and a column, if there is one. *)
Definition cellAt (board : list (list Z)) (boardY boardX : Z) : option Z :=
  match index board boardY with
  | Some row => index row boardX
  | None => None
  end.

(** A cell of the grid is covered by a block when a cell of the block's
    shape that equals 1 lies on it. *)
Definition covers (b : Block) (boardY boardX : Z) : Prop :=
  exists (rowIdx colIdx : nat) row,
    shape b !! rowIdx = Some row
    /\ row !! colIdx = Some 1
    /\ boardY = y b + Z.of_nat rowIdx
    /\ boardX = x b + Z.of_nat colIdx.

Section TickFunction.

Variable random : nat -> Z.

(** The function [tick], which the program defines but never calls: unlike
    the reducer it draws both the current and the next block anew when the
    block lands, and neither scores nor clears rows. *)
Definition tick (w : World) : result World :=
  let s := state w in
  if gameEnd s then Ok w
  else
    let* cur := deref (heap w) (currentBlock s) in
    let updatedBlock := set_y (y cur + 1) cur in
    let* valid := isValidMove (heap w) s 0 1 in
    if negb valid then
      let* stacked := stackBlock (gameBoard s) cur s in
      let s := set_gameBoard (fst stacked) s in
      let* over := isGameOver (gameBoard s) in
      let* newBlock :=
        createRandomBlock (random (draws w)) (random (S (draws w))) in
      let* newNextBlock :=
        createRandomBlock (random (S (S (draws w))))
          (random (S (S (S (draws w))))) in
      let a := alloc (heap w) newBlock in
      let a' := alloc (fst a) newNextBlock in
      Ok {| heap := fst a';
            state := set_gameEnd over
                       (set_nextBlockShape (shape newNextBlock)
                          (set_nextBlock (snd a')
                             (set_currentBlock (snd a) s)));
            draws := S (S (S (S (draws w)))) |}
    else
      let a := alloc (heap w) updatedBlock in
      Ok {| heap := fst a;
            state := set_currentBlock (snd a) s;
            draws := draws w |}.

End TickFunction.

(** *** Drawing the board and the current block *)

Module Viewport.
Definition CANVAS_WIDTH : Z := 200.
Definition CANVAS_HEIGHT : Z := 400.
Definition PREVIEW_WIDTH : Z := 160.
Definition PREVIEW_HEIGHT : Z := 80.
End Viewport.

(** The constant object [Block] of the source; both quotients are exact. *)
Module Block.
Definition WIDTH : Z := Viewport.CANVAS_WIDTH / Constants.GRID_WIDTH.
Definition HEIGHT : Z := Viewport.CANVAS_HEIGHT / Constants.GRID_HEIGHT.
End Block.

(** An SVG element: its name and the attributes set on it, in order. *)
Record Element : Type := mkElement {
  tagName : String.string;
  attributes : list (String.string * String.string)
}.

(** [`${n}`] for an integer [n]. *)
Definition numberToString (n : Z) : String.string :=
  DecimalString.NilZero.string_of_int (Z.to_int n).

(** [createSvgElement(namespace, name, props)]; the namespace is not
    kept. *)
(** [elem.setAttribute(k, v)]: an attribute already set keeps its place
    and takes the new value. *)
Fixpoint setAttribute (attrs : list (String.string * String.string))
    (k v : String.string) : list (String.string * String.string) :=
  match attrs with
  | [] => [(k, v)]
  | (k', v') :: rest =>
      if String.eqb k' k then (k, v) :: rest
      else (k', v') :: setAttribute rest k v
  end.

(** [createSvgElement(namespace, name, props)]; the namespace is not
    kept. *)
Definition createSvgElement (name : String.string)
    (props : list (String.string * String.string)) : Element :=
  fold_left (fun elem kv =>
               {| tagName := tagName elem;
                  attributes := setAttribute (attributes elem)
                                  (fst kv) (snd kv) |})
    props {| tagName := name; attributes := [] |}.

(** The green rectangle both drawing functions create for the cell in
    column [col] and row [row] of the grid. *)
Definition cellRect (col row : Z) : Element :=
  createSvgElement "rect"%string
    [ ("height"%string, numberToString Block.HEIGHT);
      ("width"%string, numberToString Block.WIDTH);
      ("x"%string, numberToString (col * Block.WIDTH));
      ("y"%string, numberToString (row * Block.HEIGHT));
      ("style"%string, "fill: green"%string) ].

(** [Array.from({ length: n }, (_, i) => ...)]: the callback sees
    [undefined] and the index. *)
Definition arrayLike (n : Z) : list unit := repeat tt (Z.to_nat n).

(** [renderGameBoard(s, svg)]; [svg] is the list of the children of the
    canvas, to which the rectangles are appended. *)
Definition renderGameBoard (s : State) (svg : list Element) :
    result (list Element) :=
  forEach (fun svg _ yy =>
    forEach (fun svg _ xx =>
      match index (gameBoard s) yy with
      | None => TypeError
      | Some row =>
          match index row xx with
          | Some cell =>
              if cell =? 1 then Ok (svg ++ [cellRect xx yy]) else Ok svg
          | None => Ok svg
          end
      end) (arrayLike Constants.GRID_WIDTH) svg)
    (arrayLike Constants.GRID_HEIGHT) svg.

(** [renderCurrentBlock(s, svg)] *)
Definition renderCurrentBlock (h : list Block) (s : State)
    (svg : list Element) : result (list Element) :=
  let* cur := deref h (currentBlock s) in
  forEach (fun svg row yy =>
    forEach (fun svg cell xx =>
      if cell =? 1
      then Ok (svg ++ [cellRect (xx + x cur) (yy + y cur)])
      else Ok svg) row svg)
    (shape cur) svg.

(** The cells of a grid of rows that equal 1, as (column, row) pairs in
    the order the drawing functions visit them; [yy] is the index of the
    first row. *)
Fixpoint onesOfRow (row : list Z) (xx yy : Z) : list (Z * Z) :=
  match row with
  | [] => []
  | cell :: rest =>
      (if cell =? 1 then [(xx, yy)] else []) ++ onesOfRow rest (xx + 1) yy
  end.

Fixpoint onesOfRows (rows : list (list Z)) (xx yy : Z) : list (Z * Z) :=
  match rows with
  | [] => []
  | row :: rest => onesOfRow row xx yy ++ onesOfRows rest xx (yy + 1)
  end.

(** * Properties *)

(** ** The random source and the block factory *)

Section DoubleFacts.

Import Double.

Lemma round_nonneg p : 0 <= p -> 0 <= round p.
Proof.
  intros Hp. unfold round.
  destruct (Z.log2 p - 52 <=? 0) eqn:Hk; [exact Hp|].
  apply Z.leb_gt in Hk.
  assert (0 < 2 ^ (Z.log2 p - 52)) by (apply Z.pow_pos_nonneg; lia).
  assert (0 <= p / 2 ^ (Z.log2 p - 52)) by (apply Z.div_pos; lia).
  destruct (_ || _); nia.
Qed.

(** Rounding moves a value up by at most half a unit in the last place,
    which is at most [p / 2^53]. *)
Lemma round_upper p : 0 <= p -> 2 ^ 53 * round p <= (2 ^ 53 + 1) * p.
Proof.
  intros Hp. unfold round.
  destruct (Z.log2 p - 52 <=? 0) eqn:Hk; [lia|].
  apply Z.leb_gt in Hk.
  assert (Hp0 : 0 < p).
  { destruct (Z.eq_dec p 0) as [->|]; [simpl in Hk; lia | lia]. }
  set (k := Z.log2 p - 52) in *.
  assert (Hlog : 2 ^ Z.log2 p <= p) by (apply Z.log2_spec; lia).
  assert (Hsplit : 2 ^ Z.log2 p = 2 ^ (k - 1) * 2 ^ 53).
  { rewrite <- Z.pow_add_r by lia. f_equal. lia. }
  assert (Hk2 : 2 ^ k = 2 * 2 ^ (k - 1)).
  { replace k with (1 + (k - 1)) at 1 by lia.
    rewrite Z.pow_add_r by lia. reflexivity. }
  assert (Hhalf : 0 < 2 ^ (k - 1)) by (apply Z.pow_pos_nonneg; lia).
  pose proof (Z.div_mod p (2 ^ k) ltac:(lia)) as Hdm.
  pose proof (Z.mod_pos_bound p (2 ^ k) ltac:(lia)) as Hrem.
  set (q := p / 2 ^ k) in *. set (rem := p mod 2 ^ k) in *.
  set (half := 2 ^ (k - 1)) in *.
  set (B := 2 ^ 53) in *.
  assert (HB : 0 < B) by (subst B; lia).
  destruct ((half <? rem) || ((rem =? half) && Z.odd q)) eqn:Hup.
  - assert (half <= rem).
    { apply orb_true_iff in Hup as [H|H]; [apply Z.ltb_lt in H; lia|].
      apply andb_true_iff in H as [H _]. apply Z.eqb_eq in H. lia. }
    nia.
  - nia.
Qed.

(** [Math.floor(Math.random() * n)] is an index below [n]. *)
Lemma floor_mul_int_bound r n :
  unit_interval r -> 1 <= n -> 0 <= floor (mul_int r n) < n.
Proof.
  unfold unit_interval, floor, mul_int, scale.
  intros Hr Hn.
  assert (Hp : 0 <= r * n) by nia.
  pose proof (round_nonneg _ Hp) as H0.
  pose proof (round_upper _ Hp) as H1.
  assert (Hs : 2 ^ 1074 = 2 ^ 1021 * 2 ^ 53)
    by (rewrite <- Z.pow_add_r by lia; reflexivity).
  assert (HA : 0 < 2 ^ 1021) by (apply Z.pow_pos_nonneg; lia).
  rewrite Hs in *.
  set (A := 2 ^ 1021) in *.
  set (R := round (r * n)) in *.
  assert (HB : 2 ^ 53 = 9007199254740992) by reflexivity.
  rewrite HB in *.
  split.
  - apply Z.div_pos; lia.
  - apply Z.div_lt_upper_bound; [lia|]. nia.
Qed.

(** The largest value of the unit interval still gives index 6 of 7. *)
Example floor_mul_int_largest :
  floor (mul_int (2 ^ 1074 - 2 ^ 1021) 7) = 6.
Proof. vm_compute. reflexivity. Qed.

(** Rounding is visible: for r = 5146971002709138 / 2^53 the exact product
    7 r is 4 - 2^-52, a tie that rounds to 4, where exact arithmetic would
    give index 3. *)
Example floor_mul_int_tie :
  floor (mul_int (5146971002709138 * 2 ^ 1021) 7) = 4
  /\ 5146971002709138 * 2 ^ 1021 * 7 / scale = 3.
Proof. split; vm_compute; reflexivity. Qed.

End DoubleFacts.

(** The cells of a catalogue shape lie within its first row's width, and
    no shape is taller than three rows. *)
Lemma blockTypes_cells sh (rowIndex colIndex : nat) row row0 :
  In sh blockTypes ->
  sh !! 0%nat = Some row0 ->
  sh !! rowIndex = Some row ->
  row !! colIndex = Some 1 ->
  (colIndex < length row0)%nat /\ (rowIndex < 3)%nat /\ (length row0 <= 4)%nat.
Proof.
  intros Hin H0 Hrow Hcell.
  simpl in Hin.
  repeat (destruct Hin as [<-|Hin]); try contradiction;
    simpl in H0; inversion H0; subst row0; clear H0;
    repeat (destruct rowIndex as [|rowIndex]; simpl in Hrow;
            try discriminate Hrow);
    inversion Hrow; subst row; clear Hrow;
    repeat (destruct colIndex as [|colIndex]; simpl in Hcell;
            try discriminate Hcell);
    simpl; lia.
Qed.

(** What the factory returns on values of the unit interval. *)
Lemma createRandomBlock_spawn (r1 r2 : Z) :
  Double.unit_interval r1 ->
  Double.unit_interval r2 ->
  exists b row0,
    createRandomBlock r1 r2 = Ok b
    /\ In (shape b) blockTypes
    /\ y b = 0
    /\ shape b !! 0%nat = Some row0
    /\ 0 <= x b <= Constants.GRID_WIDTH - Z.of_nat (length row0)
    /\ forall (rowIndex colIndex : nat) row,
         shape b !! rowIndex = Some row ->
         row !! colIndex = Some 1 ->
         0 <= x b + Z.of_nat colIndex < Constants.GRID_WIDTH.
Proof.
  intros Hr1 Hr2. unfold createRandomBlock.
  pose proof (floor_mul_int_bound r1 (Z.of_nat (length blockTypes)) Hr1
                ltac:(simpl; lia)) as Hidx.
  set (idx := Double.floor _) in *.
  unfold index at 1.
  destruct (idx <? 0) eqn:Hneg; [apply Z.ltb_lt in Hneg; lia|].
  destruct (blockTypes !! Z.to_nat idx) as [sh|] eqn:Hsh.
  2:{ apply lookup_ge_None in Hsh. simpl in *. lia. }
  assert (Hin : In sh blockTypes).
  { apply list_elem_of_In. eapply list_elem_of_lookup_2; eassumption. }
  assert (Hrow0 : exists row0, sh !! 0%nat = Some row0
                               /\ (1 <= length row0 <= 4)%nat).
  { clear -Hin. simpl in Hin.
    repeat (destruct Hin as [<-|Hin]); try contradiction;
      eexists; (split; [reflexivity | simpl; lia]). }
  destruct Hrow0 as (row0 & Hrow0 & Hlen).
  change (index sh 0) with (sh !! 0%nat). rewrite Hrow0.
  pose proof (floor_mul_int_bound r2
                (Constants.GRID_WIDTH - Z.of_nat (length row0) + 1) Hr2
                ltac:(unfold Constants.GRID_WIDTH; lia)) as Hx.
  set (randomX := Double.floor (Double.mul_int r2 _)) in *.
  exists {| shape := sh; x := randomX; y := 0 |}, row0. cbn [shape x y].
  do 4 (split; [first [reflexivity | assumption]|]).
  split; [unfold Constants.GRID_WIDTH in *; lia|].
  intros rowIndex colIndex row Hrow Hcell.
  destruct (blockTypes_cells sh rowIndex colIndex row row0) as (? & ? & ?);
    auto.
  unfold Constants.GRID_WIDTH in *. lia.
Qed.

(** C10. For every pair of values [Math.random()] can return,
    [createRandomBlock] returns a block whose shape is one of the seven
    catalogue shapes, whose row is 0 and whose column lies in
    [0, GRID_WIDTH - width] where [width] is the length of the shape's first
    row; hence every occupied cell of the new block has its column in
    [0, GRID_WIDTH). *)
Theorem createRandomBlock_in_catalogue_and_range (r1 r2 : Z) :
  Double.unit_interval r1 ->
  Double.unit_interval r2 ->
  exists b row0,
    createRandomBlock r1 r2 = Ok b
    /\ length blockTypes = 7%nat
    /\ In (shape b) blockTypes
    /\ y b = 0
    /\ shape b !! 0%nat = Some row0
    /\ 0 <= x b <= Constants.GRID_WIDTH - Z.of_nat (length row0)
    /\ forall (rowIndex colIndex : nat) row,
         shape b !! rowIndex = Some row ->
         row !! colIndex = Some 1 ->
         0 <= x b + Z.of_nat colIndex < Constants.GRID_WIDTH.
Proof.
  intros Hr1 Hr2.
  destruct (createRandomBlock_spawn r1 r2 Hr1 Hr2)
    as (b & row0 & Hb & Hin & Hy & Hrow0 & Hx & Hcells).
  exists b, row0. repeat (split; [first [reflexivity | assumption]|]).
  exact Hcells.
Qed.

(** ** Move validation *)

Lemma every_from_true {A : Type} (f : A -> Z -> result bool) arr i :
  every_from f arr i = Ok true <->
  forall (k : nat) a, arr !! k = Some a -> f a (i + Z.of_nat k) = Ok true.
Proof.
  revert i. induction arr as [|a rest IH]; intros i; simpl.
  - split; [|reflexivity]. intros _ k a Hk. destruct k; discriminate Hk.
  - destruct (f a i) as [[|]| |] eqn:Hfa; simpl.
    + rewrite IH. split.
      * intros H [|k] a' Hk; simpl in Hk.
        -- inversion Hk; subst a'. rewrite Z.add_0_r. exact Hfa.
        -- replace (i + Z.of_nat (S k)) with (i + 1 + Z.of_nat k) by lia.
           apply H. exact Hk.
      * intros H k a' Hk.
        replace (i + 1 + Z.of_nat k) with (i + Z.of_nat (S k)) by lia.
        apply H. exact Hk.
    + split; [discriminate|]. intros H.
      specialize (H 0%nat a eq_refl). rewrite Z.add_0_r in H. congruence.
    + split; [discriminate|]. intros H.
      specialize (H 0%nat a eq_refl). rewrite Z.add_0_r in H. congruence.
    + split; [discriminate|]. intros H.
      specialize (H 0%nat a eq_refl). rewrite Z.add_0_r in H. congruence.
Qed.

Lemma cellIsZero_true gameBoard boardY boardX :
  0 <= boardY -> 0 <= boardX ->
  cellIsZero gameBoard boardY boardX = Ok true <->
  exists row, gameBoard !! Z.to_nat boardY = Some row
              /\ row !! Z.to_nat boardX = Some 0.
Proof.
  intros Hy Hx. unfold cellIsZero, index.
  destruct (boardY <? 0) eqn:Hy'; [apply Z.ltb_lt in Hy'; lia|].
  destruct (boardX <? 0) eqn:Hx'; [apply Z.ltb_lt in Hx'; lia|].
  destruct (gameBoard !! Z.to_nat boardY) as [row|].
  - destruct (row !! Z.to_nat boardX) as [cell|] eqn:Hcell.
    + split.
      * intros H. inversion H as [Hc]. apply Z.eqb_eq in Hc. subst cell.
        exists row. split; [reflexivity | exact Hcell].
      * intros (row' & Hr & Hc). inversion Hr; subst row'.
        rewrite Hcell in Hc. inversion Hc. reflexivity.
    + split; [discriminate|]. intros (row' & Hr & Hc).
      inversion Hr; subst row'. rewrite Hcell in Hc. discriminate Hc.
  - split; [discriminate|]. intros (row' & Hr & _). discriminate Hr.
Qed.

(** The validator on a block value. *)
Lemma validCells_true gameBoard b deltaX deltaY :
  validCells gameBoard b deltaX deltaY = Ok true <->
  forall (rowIndex colIndex : nat) row,
    shape b !! rowIndex = Some row ->
    row !! colIndex = Some 1 ->
    let boardX := x b + Z.of_nat colIndex + deltaX in
    let boardY := y b + Z.of_nat rowIndex + deltaY in
    0 <= boardX < Constants.GRID_WIDTH
    /\ boardY < Constants.GRID_HEIGHT
    /\ (boardY < 0
        \/ exists brow, gameBoard !! Z.to_nat boardY = Some brow
                        /\ brow !! Z.to_nat boardX = Some 0).
Proof.
  unfold validCells, every. rewrite every_from_true. cbv zeta.
  split.
  - intros H rowIndex colIndex row Hrow Hcell.
    specialize (H rowIndex row Hrow). rewrite every_from_true in H.
    specialize (H colIndex 1 Hcell). cbn beta in H.
    rewrite !Z.add_0_l in H. change (1 =? 1) with true in H. cbn iota in H.
    set (boardX := x b + Z.of_nat colIndex + deltaX) in *.
    set (boardY := y b + Z.of_nat rowIndex + deltaY) in *.
    destruct (boardX >=? 0) eqn:H1; [|discriminate H].
    destruct (boardX <? Constants.GRID_WIDTH) eqn:H2; [|discriminate H].
    destruct (boardY <? Constants.GRID_HEIGHT) eqn:H3; [|discriminate H].
    cbn [andb] in H.
    apply Z.geb_le in H1. apply Z.ltb_lt in H2. apply Z.ltb_lt in H3.
    split; [lia|]. split; [lia|].
    destruct (boardY <? 0) eqn:H4.
    + left. apply Z.ltb_lt in H4. exact H4.
    + right. apply Z.ltb_ge in H4. apply cellIsZero_true in H; auto.
  - intros H rowIndex row Hrow. rewrite every_from_true.
    intros colIndex cell Hcell. rewrite !Z.add_0_l.
    destruct (cell =? 1) eqn:Hc; [|reflexivity].
    apply Z.eqb_eq in Hc. subst cell.
    specialize (H rowIndex colIndex row Hrow Hcell).
    set (boardX := x b + Z.of_nat colIndex + deltaX) in *.
    set (boardY := y b + Z.of_nat rowIndex + deltaY) in *.
    destruct H as (Hx & Hy & Hfree).
    replace (boardX >=? 0) with true by (symmetry; apply Z.geb_le; lia).
    replace (boardX <? Constants.GRID_WIDTH) with true
      by (symmetry; apply Z.ltb_lt; lia).
    replace (boardY <? Constants.GRID_HEIGHT) with true
      by (symmetry; apply Z.ltb_lt; lia).
    cbn [andb].
    destruct (boardY <? 0) eqn:H4; [reflexivity|].
    apply Z.ltb_ge in H4. destruct Hfree as [Hneg|Hfree]; [lia|].
    apply cellIsZero_true; auto; lia.
Qed.

(** C2. [isValidMove] accepts an offset if and only if every cell of the
    current block's shape that equals 1 lands, after the offset, in a column
    within [0, GRID_WIDTH), in a row below GRID_HEIGHT, and either above the
    board (row < 0) or on a board cell that holds 0.  Shape cells that are
    not 1 impose no constraint. *)
Theorem isValidMove_accepts_iff (h : list Block) (s : State) (b : Block)
    (deltaX deltaY : Z) :
  h !! currentBlock s = Some b ->
  isValidMove h s deltaX deltaY = Ok true <->
  forall (rowIndex colIndex : nat) row,
    shape b !! rowIndex = Some row ->
    row !! colIndex = Some 1 ->
    let boardX := x b + Z.of_nat colIndex + deltaX in
    let boardY := y b + Z.of_nat rowIndex + deltaY in
    0 <= boardX < Constants.GRID_WIDTH
    /\ boardY < Constants.GRID_HEIGHT
    /\ (boardY < 0
        \/ exists brow, gameBoard s !! Z.to_nat boardY = Some brow
                        /\ brow !! Z.to_nat boardX = Some 0).
Proof.
  intros Hb. unfold isValidMove, deref. rewrite Hb. cbn [bind].
  apply validCells_true.
Qed.

(** ** The clearing loop: score and level *)

Lemma clearLoop_score rows yy s :
  score (clearLoop rows yy s)
  = score s + 10 * Z.of_nat (length (List.filter isFullRow rows)).
Proof.
  revert yy s. induction rows as [|row rest IH]; intros yy s; simpl.
  - lia.
  - rewrite IH. destruct (isFullRow row); simpl; lia.
Qed.

Lemma clearLoop_level rows yy s :
  level (clearLoop rows yy s)
  = level s + Z.of_nat (length (List.filter isFullRow rows)).
Proof.
  revert yy s. induction rows as [|row rest IH]; intros yy s; simpl.
  - lia.
  - rewrite IH. destruct (isFullRow row); simpl; lia.
Qed.

Lemma clearLoop_other_fields rows yy s :
  gameEnd (clearLoop rows yy s) = gameEnd s
  /\ currentBlock (clearLoop rows yy s) = currentBlock s
  /\ nextBlock (clearLoop rows yy s) = nextBlock s
  /\ nextBlockShape (clearLoop rows yy s) = nextBlockShape s
  /\ canRestart (clearLoop rows yy s) = canRestart s
  /\ highScore (clearLoop rows yy s) = highScore s.
Proof.
  revert yy s. induction rows as [|row rest IH]; intros yy s; simpl.
  - repeat split.
  - destruct (IH (yy + 1) (if isFullRow row then clearRow s yy else s))
      as (-> & -> & -> & -> & -> & ->).
    destruct (isFullRow row); repeat split.
Qed.

Lemma fullRowCount_rev board :
  Z.of_nat (length (List.filter isFullRow (rev board))) = fullRowCount board.
Proof.
  unfold fullRowCount. rewrite List.filter_rev, length_rev. reflexivity.
Qed.

Lemma clearFullRows_score s :
  score (clearFullRows s) = score s + 10 * fullRowCount (gameBoard s).
Proof.
  unfold clearFullRows. rewrite clearLoop_score, fullRowCount_rev.
  reflexivity.
Qed.

Lemma clearFullRows_level s :
  level (clearFullRows s) = level s + fullRowCount (gameBoard s).
Proof.
  unfold clearFullRows. rewrite clearLoop_level, fullRowCount_rev.
  reflexivity.
Qed.

(** Without a full row the loop changes nothing. *)
Lemma clearLoop_no_full_row rows yy s :
  List.filter isFullRow rows = [] -> clearLoop rows yy s = s.
Proof.
  revert yy s. induction rows as [|row rest IH]; intros yy s Hnone; simpl.
  - reflexivity.
  - simpl in Hnone. destruct (isFullRow row); [discriminate Hnone|].
    apply IH. exact Hnone.
Qed.

Lemma clearLoop_app rows1 rows2 yy s :
  clearLoop (rows1 ++ rows2) yy s
  = clearLoop rows2 (yy + Z.of_nat (length rows1)) (clearLoop rows1 yy s).
Proof.
  revert yy s. induction rows1 as [|row rest IH]; intros yy s.
  - cbn [app clearLoop length]. f_equal. lia.
  - cbn [app clearLoop length]. rewrite IH. f_equal. lia.
Qed.

Lemma filter_none_keeps_all (rows : list (list Z)) :
  List.filter isFullRow rows = [] ->
  List.filter (fun row => negb (isFullRow row)) rows = rows.
Proof.
  induction rows as [|row rest IH]; intros Hnone; simpl in *.
  - reflexivity.
  - destruct (isFullRow row); [discriminate Hnone|].
    simpl. f_equal. apply IH. exact Hnone.
Qed.

(** With no full row, the loop and the specification's step both leave the
    board as it is. *)
Lemma clearFullRows_no_full_row s :
  List.filter isFullRow (gameBoard s) = [] ->
  clearFullRows s = s
  /\ Spec.resolveClears (gameBoard s) = (gameBoard s, 0%nat).
Proof.
  intros Hnone. split.
  - unfold clearFullRows. apply clearLoop_no_full_row.
    rewrite List.filter_rev, Hnone. reflexivity.
  - unfold Spec.resolveClears. rewrite filter_none_keeps_all by exact Hnone.
    rewrite Nat.sub_diag. reflexivity.
Qed.

(** With exactly one full row on a board of GRID_HEIGHT rows, the loop
    agrees with the specification's step: the row is removed and one empty
    row is put on top. *)
Lemma clearFullRows_one_full_row s top row bottom :
  gameBoard s = top ++ row :: bottom ->
  length (gameBoard s) = Z.to_nat Constants.GRID_HEIGHT ->
  isFullRow row = true ->
  List.filter isFullRow top = [] ->
  List.filter isFullRow bottom = [] ->
  gameBoard (clearFullRows s) = emptyRow :: top ++ bottom
  /\ Spec.resolveClears (gameBoard s) = (emptyRow :: top ++ bottom, 1%nat).
Proof.
  intros Hboard Hlen Hfull Htop Hbottom. split.
  - unfold clearFullRows. rewrite Hboard.
    rewrite rev_app_distr. cbn [rev]. rewrite <- app_assoc. cbn [app].
    rewrite clearLoop_app.
    rewrite (clearLoop_no_full_row (rev bottom))
      by (rewrite List.filter_rev, Hbottom; reflexivity).
    cbn [clearLoop]. rewrite Hfull.
    rewrite (clearLoop_no_full_row (rev top))
      by (rewrite List.filter_rev, Htop; reflexivity).
    unfold clearRow. cbn [gameBoard set_gameBoard set_score set_level].
    f_equal. rewrite Hboard in *. rewrite length_rev.
    rewrite length_app in Hlen. cbn [length] in Hlen.
    unfold splice1, Constants.GRID_HEIGHT in *.
    rewrite length_app. cbn [length].
    replace (20 - 1 - (0 + Z.of_nat (length bottom)))
      with (Z.of_nat (length top)) by lia.
    destruct (Z.of_nat (length top) <? 0) eqn:Hneg;
      [apply Z.ltb_lt in Hneg; lia|].
    rewrite Z.min_l by lia. rewrite Nat2Z.id. apply delete_middle.
  - unfold Spec.resolveClears. rewrite Hboard.
    rewrite List.filter_app. cbn [List.filter]. rewrite Hfull. cbn [negb].
    rewrite !filter_none_keeps_all by assumption.
    rewrite !length_app. cbn [length].
    replace (length top + S (length bottom) - (length top + length bottom))%nat
      with 1%nat by lia.
    reflexivity.
Qed.

(** ** A tick that locks the current block *)

Section Tick.

Variable random : nat -> Z.


Lemma lockedBoard_inv h s board :
  lockedBoard h s = Ok board ->
  exists cur stacked,
    h !! currentBlock s = Some cur
    /\ stackBlock (gameBoard s) cur s = Ok stacked
    /\ fst stacked = board.
Proof.
  unfold lockedBoard, deref. intros H.
  destruct (h !! currentBlock s) as [cur|]; [|discriminate H].
  cbn [bind] in H.
  destruct (stackBlock (gameBoard s) cur s) as [stacked| |] eqn:Hst;
    try discriminate H.
  cbn [bind] in H. inversion H. eauto.
Qed.

Lemma reducer_tick_lock (w : World) board over :
  gameEnd (state w) = false ->
  isValidMove (heap w) (state w) 0 1 = Ok false ->
  lockedBoard (heap w) (state w) = Ok board ->
  isGameOver board = Ok over ->
  reducer random w Tick =
    let s := landed (state w) board over in
    if over then
      Ok {| heap := heap w;
            state := set_highScore
                       (if score s >? highScore s then score s
                        else highScore s)
                       (set_canRestart true (set_gameEnd over s));
            draws := draws w |}
    else
      let* newNextBlock :=
        createRandomBlock (random (draws w)) (random (S (draws w))) in
      Ok {| heap := heap w ++ [newNextBlock];
            state := set_nextBlockShape (shape newNextBlock)
                       (set_nextBlock (length (heap w))
                          (set_currentBlock (nextBlock s) s));
            draws := S (S (draws w)) |}.
Proof.
  intros Hend Hvalid Hlock Hover.
  destruct (lockedBoard_inv _ _ _ Hlock) as (cur & stacked & Hcur & Hst & <-).
  unfold reducer, deref. rewrite Hend, Hcur. cbn [bind].
  rewrite Hvalid. cbn [bind negb]. rewrite Hst. cbn [bind].
  cbn [gameBoard set_gameBoard]. rewrite Hover. cbn [bind].
  unfold landed. destruct over; reflexivity.
Qed.

Lemma landed_score s board over :
  score (landed s board over)
  = score s + (if over then 0 else 1) + 10 * fullRowCount board.
Proof.
  unfold landed. rewrite clearFullRows_score.
  destruct over; simpl; lia.
Qed.

Lemma landed_level s board over :
  level (landed s board over) = level s + fullRowCount board.
Proof.
  unfold landed. rewrite clearFullRows_level.
  destruct over; simpl; lia.
Qed.

(** C5. A tick that locks the current block, leaves no full row on the
    board and does not end the game yields a state whose score is the
    previous score plus 1 and whose level is unchanged. *)
Theorem tick_landing_without_full_row (w : World) (board : list (list Z)) :
  gameEnd (state w) = false ->
  isValidMove (heap w) (state w) 0 1 = Ok false ->
  lockedBoard (heap w) (state w) = Ok board ->
  fullRowCount board = 0 ->
  isGameOver board = Ok false ->
  Double.unit_interval (random (draws w)) ->
  Double.unit_interval (random (S (draws w))) ->
  exists w',
    reducer random w Tick = Ok w'
    /\ score (state w') = score (state w) + 1
    /\ level (state w') = level (state w).
Proof.
  intros Hend Hvalid Hlock Hnone Hover Hr1 Hr2.
  rewrite (reducer_tick_lock w board false Hend Hvalid Hlock Hover).
  destruct (createRandomBlock_spawn _ _ Hr1 Hr2) as (nb & _ & -> & _).
  cbv zeta. cbn [bind]. eexists. split; [reflexivity|].
  cbn [state score level set_nextBlockShape set_nextBlock set_currentBlock].
  rewrite landed_score, landed_level, Hnone. lia.
Qed.

Lemma isGameOver_true board row0 :
  board !! 0%nat = Some row0 -> In 1 row0 -> isGameOver board = Ok true.
Proof.
  intros Hrow Hin. unfold isGameOver.
  change (index board 0) with (board !! 0%nat). rewrite Hrow.
  f_equal. apply existsb_exists. exists 1. split; [exact Hin | reflexivity].
Qed.

(** C6. A tick that locks the current block while the stacked board has an
    occupied cell in row 0 yields a state with [gameEnd] and [canRestart]
    set, whose [highScore] is the larger of the previous high score and the
    score computed by this tick; [currentBlock] still refers to the block
    that was locked, which is unchanged, and [nextBlock] has not been
    promoted. *)
Theorem tick_game_over (w : World) (board : list (list Z)) (row0 : list Z) :
  gameEnd (state w) = false ->
  isValidMove (heap w) (state w) 0 1 = Ok false ->
  lockedBoard (heap w) (state w) = Ok board ->
  board !! 0%nat = Some row0 ->
  In 1 row0 ->
  exists w',
    reducer random w Tick = Ok w'
    /\ gameEnd (state w') = true
    /\ canRestart (state w') = true
    /\ score (state w') = score (state w) + 10 * fullRowCount board
    /\ level (state w') = level (state w) + fullRowCount board
    /\ highScore (state w') = Z.max (highScore (state w)) (score (state w'))
    /\ currentBlock (state w') = currentBlock (state w)
    /\ nextBlock (state w') = nextBlock (state w)
    /\ activeBlock w' = activeBlock w
    /\ heap w' = heap w.
Proof.
  intros Hend Hvalid Hlock Hrow Hin.
  pose proof (isGameOver_true board row0 Hrow Hin) as Hover.
  rewrite (reducer_tick_lock w board true Hend Hvalid Hlock Hover).
  cbv zeta. cbn iota. eexists. split; [reflexivity|].
  unfold activeBlock.
  cbn [state heap gameEnd canRestart score level highScore currentBlock
       nextBlock set_highScore set_canRestart set_gameEnd].
  pose proof (landed_score (state w) board true) as Hs.
  pose proof (landed_level (state w) board true) as Hl.
  unfold landed in *.
  destruct (clearLoop_other_fields
              (rev (gameBoard (set_gameBoard board (state w)))) 0
              (set_gameBoard board (state w)))
    as (_ & Hcb & Hnb & _ & _ & Hhs).
  cbn [negb] in *. unfold clearFullRows in *.
  rewrite Hcb, Hnb, Hhs. cbn [currentBlock nextBlock highScore set_gameBoard].
  repeat split; try lia.
  destruct (_ >? _) eqn:Hcmp.
  - apply Z.gtb_lt in Hcmp. lia.
  - rewrite Z.gtb_ltb in Hcmp. apply Z.ltb_ge in Hcmp. lia.
Qed.

(** C7. A tick that locks the current block while [k >= 1] rows of the
    stacked board are full and the game does not end yields a state whose
    score is the previous score plus 1 + 10 * k and whose level is the
    previous level plus k. *)
Theorem tick_landing_with_full_rows (w : World) (board : list (list Z))
    (k : Z) :
  gameEnd (state w) = false ->
  isValidMove (heap w) (state w) 0 1 = Ok false ->
  lockedBoard (heap w) (state w) = Ok board ->
  fullRowCount board = k ->
  1 <= k ->
  isGameOver board = Ok false ->
  Double.unit_interval (random (draws w)) ->
  Double.unit_interval (random (S (draws w))) ->
  exists w',
    reducer random w Tick = Ok w'
    /\ score (state w') = score (state w) + 1 + 10 * k
    /\ level (state w') = level (state w) + k.
Proof.
  intros Hend Hvalid Hlock Hk Hpos Hover Hr1 Hr2.
  rewrite (reducer_tick_lock w board false Hend Hvalid Hlock Hover).
  destruct (createRandomBlock_spawn _ _ Hr1 Hr2) as (nb & _ & -> & _).
  cbv zeta. cbn [bind]. eexists. split; [reflexivity|].
  cbn [state score level set_nextBlockShape set_nextBlock set_currentBlock].
  rewrite landed_score, landed_level, Hk. lia.
Qed.

End Tick.

(** ** The transitions of the reducer *)

Section Transitions.

Variable random : nat -> Z.

Lemma updatedHighScore_max (a b : Z) :
  (if a >? b then a else b) = Z.max b a.
Proof.
  destruct (a >? b) eqn:Hcmp.
  - apply Z.gtb_lt in Hcmp. lia.
  - rewrite Z.gtb_ltb in Hcmp. apply Z.ltb_ge in Hcmp. lia.
Qed.

Lemma move_inv (w w' : World) (dx dy : Z) :
  (let* valid := isValidMove (heap w) (state w) dx dy in
   if valid then moveCurrent w dx dy else Ok w) = Ok w' ->
  w' = w
  \/ exists cur,
       heap w !! currentBlock (state w) = Some cur
       /\ validCells (gameBoard (state w)) cur dx dy = Ok true
       /\ w' = {| heap := <[currentBlock (state w) :=
                             {| shape := shape cur;
                                x := x cur + dx;
                                y := y cur + dy |}]> (heap w);
                  state := state w;
                  draws := draws w |}.
Proof.
  unfold isValidMove, moveCurrent, deref.
  destruct (heap w !! currentBlock (state w)) as [cur|]; [|discriminate].
  cbn [bind].
  destruct (validCells (gameBoard (state w)) cur dx dy) as [[|]| |] eqn:Hv;
    cbn [bind]; intros H; inversion H; subst; eauto.
Qed.

(** Every successful step of the reducer is of one of five kinds: nothing
    changes, the current block is moved in place, the game restarts, a tick
    lets the block fall, or a tick locks it. *)
Lemma reducer_inv (w : World) (e : Event) (w' : World) :
  reducer random w e = Ok w' ->
  w' = w
  \/ (exists dx dy cur,
        0 <= dy
        /\ heap w !! currentBlock (state w) = Some cur
        /\ validCells (gameBoard (state w)) cur dx dy = Ok true
        /\ w' = {| heap := <[currentBlock (state w) :=
                              {| shape := shape cur;
                                 x := x cur + dx;
                                 y := y cur + dy |}]> (heap w);
                   state := state w;
                   draws := draws w |})
  \/ (exists fresh,
        e = KeyboardEvent KeyR
        /\ canRestart (state w) = true
        /\ gameEnd (state w) = true
        /\ restartGame random = Ok fresh
        /\ w' = {| heap := heap w;
                   state := set_highScore
                              (Z.max (highScore (state w)) (score (state w)))
                              (set_canRestart false fresh);
                   draws := draws w |})
  \/ (exists cur,
        e = Tick
        /\ gameEnd (state w) = false
        /\ heap w !! currentBlock (state w) = Some cur
        /\ validCells (gameBoard (state w)) cur 0 1 = Ok true
        /\ w' = {| heap := heap w ++ [set_y (y cur + 1) cur];
                   state := set_currentBlock (length (heap w)) (state w);
                   draws := draws w |})
  \/ (exists board over,
        e = Tick
        /\ gameEnd (state w) = false
        /\ isValidMove (heap w) (state w) 0 1 = Ok false
        /\ lockedBoard (heap w) (state w) = Ok board
        /\ isGameOver board = Ok over
        /\ let s := landed (state w) board over in
           (over = true
            /\ w' = {| heap := heap w;
                       state := set_highScore
                                  (Z.max (highScore s) (score s))
                                  (set_canRestart true (set_gameEnd true s));
                       draws := draws w |})
           \/ (over = false
               /\ exists newNextBlock,
                    createRandomBlock (random (draws w))
                      (random (S (draws w))) = Ok newNextBlock
                    /\ w' = {| heap := heap w ++ [newNextBlock];
                               state :=
                                 set_nextBlockShape (shape newNextBlock)
                                   (set_nextBlock (length (heap w))
                                      (set_currentBlock (nextBlock s) s));
                               draws := S (S (draws w)) |})).
Proof.
  destruct e as [[| | |]|].
  - intros H. apply move_inv in H as [->|(cur & ? & ? & ->)]; [auto|].
    right; left. exists (-1), 0, cur. repeat split; auto. lia.
  - intros H. apply move_inv in H as [->|(cur & ? & ? & ->)]; [auto|].
    right; left. exists 1, 0, cur. repeat split; auto. lia.
  - intros H. apply move_inv in H as [->|(cur & ? & ? & ->)]; [auto|].
    right; left. exists 0, 1, cur. repeat split; auto. lia.
  - cbn [reducer].
    destruct (canRestart (state w)) eqn:Hcr; [|intros H; inversion H; auto].
    destruct (gameEnd (state w)) eqn:Hge; [|intros H; inversion H; auto].
    destruct (restartGame random) as [fresh| |] eqn:Hfresh;
      cbn [bind]; intros H; inversion H.
    right; right; left. exists fresh. rewrite updatedHighScore_max.
    repeat split; auto.
  - intros H. pose proof H as Hstep. cbn [reducer] in H.
    destruct (gameEnd (state w)) eqn:Hge; [inversion H; auto|].
    unfold deref at 1 in H.
    destruct (heap w !! currentBlock (state w)) as [cur|] eqn:Hcur;
      [|discriminate H].
    cbn [bind] in H.
    destruct (isValidMove (heap w) (state w) 0 1) as [[|]| |] eqn:Hvalid;
      cbn [bind negb] in H; try discriminate H.
    + cbn [alloc fst snd] in H. inversion H.
      right; right; right; left. exists cur.
      unfold isValidMove, deref in Hvalid. rewrite Hcur in Hvalid.
      repeat split; auto.
    + destruct (stackBlock (gameBoard (state w)) cur (state w))
        as [stacked| |] eqn:Hst; cbn [bind] in H; try discriminate H.
      cbn [gameBoard set_gameBoard] in H.
      destruct (isGameOver (fst stacked)) as [over| |] eqn:Hover;
        cbn [bind] in H; try discriminate H.
      assert (Hlock : lockedBoard (heap w) (state w) = Ok (fst stacked)).
      { unfold lockedBoard, deref. rewrite Hcur. cbn [bind].
        rewrite Hst. reflexivity. }
      clear H.
      rewrite (reducer_tick_lock random w _ over Hge Hvalid Hlock Hover)
        in Hstep.
      cbv zeta in Hstep.
      right; right; right; right. exists (fst stacked), over.
      do 5 (split; [first [reflexivity | assumption]|]).
      cbv zeta. destruct over.
      * left. rewrite updatedHighScore_max in Hstep. inversion Hstep. auto.
      * right. split; [reflexivity|].
        destruct (createRandomBlock _ _) as [nb| |]; cbn [bind] in Hstep;
          inversion Hstep.
        exists nb. auto.
Qed.

End Transitions.

(** ** Well-formed worlds: no step fails *)

Lemma every_from_ok {A : Type} (f : A -> Z -> result bool) arr i :
  (forall (k : nat) a, arr !! k = Some a ->
                       exists b, f a (i + Z.of_nat k) = Ok b) ->
  exists b, every_from f arr i = Ok b.
Proof.
  revert i. induction arr as [|a rest IH]; intros i Hf; simpl.
  - eauto.
  - destruct (Hf 0%nat a eq_refl) as (b & Hb). rewrite Z.add_0_r in Hb.
    rewrite Hb. cbn [bind]. destruct b; [|eauto].
    apply IH. intros k a' Hk.
    replace (i + 1 + Z.of_nat k) with (i + Z.of_nat (S k)) by lia.
    apply Hf. exact Hk.
Qed.

Lemma forEach_from_ok {A St : Type} (P : St -> Prop)
    (f : St -> A -> Z -> result St) arr i acc :
  P acc ->
  (forall acc0 (k : nat) a,
     arr !! k = Some a -> P acc0 ->
     exists acc1, f acc0 a (i + Z.of_nat k) = Ok acc1 /\ P acc1) ->
  exists acc', forEach_from f arr i acc = Ok acc' /\ P acc'.
Proof.
  revert i acc. induction arr as [|a rest IH]; intros i acc Hacc Hf; simpl.
  - eauto.
  - destruct (Hf acc 0%nat a eq_refl Hacc) as (acc1 & Hstep & Hacc1).
    rewrite Z.add_0_r in Hstep. rewrite Hstep. cbn [bind].
    apply IH; [exact Hacc1|]. intros acc0 k a' Hk Hacc0.
    replace (i + 1 + Z.of_nat k) with (i + Z.of_nat (S k)) by lia.
    apply Hf; assumption.
Qed.

Lemma boardOk_row board boardY :
  boardOk board -> 0 <= boardY < Constants.GRID_HEIGHT ->
  exists row, index board boardY = Some row
              /\ length row = Z.to_nat Constants.GRID_WIDTH.
Proof.
  intros [Hlen Hrows] Hy. unfold index.
  destruct (boardY <? 0) eqn:Hneg; [apply Z.ltb_lt in Hneg; lia|].
  destruct (board !! Z.to_nat boardY) as [row|] eqn:Hrow.
  - exists row. split; [reflexivity|].
    exact (Forall_lookup_1 _ _ _ _ Hrows Hrow).
  - apply lookup_ge_None in Hrow. lia.
Qed.

Lemma validCells_ok board b deltaX deltaY :
  boardOk board -> exists valid, validCells board b deltaX deltaY = Ok valid.
Proof.
  intros Hboard. unfold validCells, every.
  apply every_from_ok. intros rowIndex row _.
  apply every_from_ok. intros colIndex cell _.
  destruct (cell =? 1); [|eauto].
  destruct (_ && _) eqn:Hguard; [|eauto].
  apply andb_true_iff in Hguard as [Hguard Hy].
  apply Z.ltb_lt in Hy.
  destruct (_ <? 0) eqn:Hneg; [eauto|]. apply Z.ltb_ge in Hneg.
  unfold cellIsZero.
  destruct (boardOk_row board _ Hboard (conj Hneg Hy)) as (row' & -> & _).
  destruct (index row' _); eauto.
Qed.

Lemma setCell_ok board boardY boardX :
  boardOk board ->
  0 <= boardY < Constants.GRID_HEIGHT ->
  0 <= boardX < Constants.GRID_WIDTH ->
  exists board', setCell board boardY boardX = Ok board' /\ boardOk board'.
Proof.
  intros Hboard Hy Hx. unfold setCell.
  destruct (boardOk_row board _ Hboard Hy) as (row & Hrow & Hlen).
  rewrite Hrow.
  unfold index. destruct (boardX <? 0) eqn:Hneg;
    [apply Z.ltb_lt in Hneg; lia|].
  destruct (row !! Z.to_nat boardX) as [cell|] eqn:Hcell.
  2:{ apply lookup_ge_None in Hcell. lia. }
  eexists. split; [reflexivity|].
  destruct Hboard as [Hlen' Hrows]. split.
  - rewrite length_insert. exact Hlen'.
  - apply Forall_insert; [exact Hrows|]. rewrite length_insert. exact Hlen.
Qed.

Lemma stackBlock_ok board b s :
  boardOk board -> blockOk b ->
  exists stacked, stackBlock board b s = Ok stacked /\ boardOk (fst stacked).
Proof.
  intros Hboard [Hy Hcells]. unfold stackBlock, forEach.
  destruct (forEach_from_ok boardOk
              (fun board row rowIdx =>
                 forEach_from
                   (fun board cell colIdx =>
                      if cell =? 1 then
                        if y b + rowIdx >=? 0
                        then setCell board (y b + rowIdx) (x b + colIdx)
                        else Ok board
                      else Ok board) row 0 board)
              (shape b) 0 board Hboard) as (board' & Hrun & Hboard').
  - intros acc0 rowIndex row Hrow Hacc0.
    apply forEach_from_ok; [exact Hacc0|].
    intros acc1 colIndex cell Hcell Hacc1.
    destruct (cell =? 1) eqn:Hc; [|eauto].
    apply Z.eqb_eq in Hc. subst cell.
    destruct (Hcells rowIndex colIndex row Hrow Hcell) as [Hx Hy'].
    destruct (_ >=? 0) eqn:Hge; [|eauto].
    apply setCell_ok; [exact Hacc1| |]; lia.
  - rewrite Hrun. cbn [bind]. eexists. split; [reflexivity|exact Hboard'].
Qed.

Lemma isGameOver_ok board :
  boardOk board -> exists over, isGameOver board = Ok over.
Proof.
  intros Hboard. unfold isGameOver.
  destruct (boardOk_row board 0 Hboard) as (row & -> & _);
    [unfold Constants.GRID_HEIGHT; lia | eauto].
Qed.

Lemma emptyBoard_ok : boardOk emptyBoard.
Proof.
  split.
  - reflexivity.
  - unfold emptyBoard. apply Forall_forall. intros row Hrow.
    apply list_elem_of_In, repeat_spec in Hrow. subst row. reflexivity.
Qed.

Lemma clearRow_ok s yy :
  0 <= yy < Constants.GRID_HEIGHT ->
  boardOk (gameBoard s) -> boardOk (gameBoard (clearRow s yy)).
Proof.
  intros Hyy [Hlen Hrows]. unfold clearRow, splice1.
  cbn [gameBoard set_gameBoard set_score set_level].
  unfold Constants.GRID_HEIGHT in *.
  destruct (20 - 1 - yy <? 0) eqn:Hneg; [apply Z.ltb_lt in Hneg; lia|].
  rewrite Hlen. change (Z.of_nat (Z.to_nat 20)) with 20.
  rewrite Z.min_l by lia.
  split.
  - cbn [length]. rewrite length_delete.
    + rewrite Hlen. reflexivity.
    + apply lookup_lt_is_Some. lia.
  - constructor; [reflexivity|]. apply Forall_delete. exact Hrows.
Qed.

Lemma clearLoop_ok rows yy s :
  0 <= yy ->
  yy + Z.of_nat (length rows) <= Constants.GRID_HEIGHT ->
  boardOk (gameBoard s) -> boardOk (gameBoard (clearLoop rows yy s)).
Proof.
  revert yy s. induction rows as [|row rest IH]; intros yy s Hyy Hlen Hs.
  - exact Hs.
  - cbn [clearLoop]. cbn [length] in Hlen. apply IH; [lia | lia |].
    destruct (isFullRow row); [|exact Hs].
    apply clearRow_ok; [lia | exact Hs].
Qed.

Lemma landed_ok s board over :
  boardOk board -> boardOk (gameBoard (landed s board over)).
Proof.
  intros Hboard. unfold landed, clearFullRows.
  apply clearLoop_ok.
  - lia.
  - rewrite length_rev. destruct over; cbn; destruct Hboard as [-> _];
      reflexivity.
  - destruct over; exact Hboard.
Qed.

Lemma landed_refs s board over :
  currentBlock (landed s board over) = currentBlock s
  /\ nextBlock (landed s board over) = nextBlock s
  /\ highScore (landed s board over) = highScore s
  /\ canRestart (landed s board over) = canRestart s
  /\ gameEnd (landed s board over) = gameEnd s.
Proof.
  unfold landed, clearFullRows.
  match goal with
  | |- context [clearLoop ?rows ?yy ?s0] =>
      destruct (clearLoop_other_fields rows yy s0)
        as (-> & -> & -> & _ & -> & ->)
  end.
  destruct over; repeat split.
Qed.

Lemma moved_blockOk board cur dx dy :
  blockOk cur -> 0 <= dy ->
  validCells board cur dx dy = Ok true ->
  blockOk {| shape := shape cur; x := x cur + dx; y := y cur + dy |}.
Proof.
  intros [Hy _] Hdy Hvalid. split; cbn [shape x y]; [lia|].
  intros rowIndex colIndex row Hrow Hcell.
  rewrite validCells_true in Hvalid.
  destruct (Hvalid rowIndex colIndex row Hrow Hcell) as (Hx & Hy' & _).
  lia.
Qed.

Lemma spawned_blockOk r1 r2 b :
  Double.unit_interval r1 -> Double.unit_interval r2 ->
  createRandomBlock r1 r2 = Ok b -> blockOk b.
Proof.
  intros Hr1 Hr2 Hb.
  destruct (createRandomBlock_spawn r1 r2 Hr1 Hr2)
    as (b' & row0 & Hb' & Hin & Hy & Hrow0 & Hx & Hcells).
  rewrite Hb in Hb'. inversion Hb'. subst b'.
  split; [lia|]. intros rowIndex colIndex row Hrow Hcell.
  split; [eapply Hcells; eassumption|].
  destruct (blockTypes_cells _ rowIndex colIndex row row0 Hin Hrow0 Hrow Hcell)
    as (_ & Hr & _).
  unfold Constants.GRID_HEIGHT. lia.
Qed.

Section WellFormed.

Variable random : nat -> Z.
Hypothesis random_unit : forall i, Double.unit_interval (random i).

Lemma initialStateWithNextShape_inv :
  exists b0 b1,
    createRandomBlock (random 0) (random 1) = Ok b0
    /\ createRandomBlock (random 2) (random 3) = Ok b1
    /\ initialStateWithNextShape random =
         Ok ([b0; b1],
             {| gameEnd := false;
                gameBoard := emptyBoard;
                currentBlock := 0%nat;
                nextBlock := 1%nat;
                nextBlockShape := shape b1;
                score := 0;
                canRestart := false;
                highScore := 0;
                level := 1 |}).
Proof.
  destruct (createRandomBlock_spawn _ _ (random_unit 0) (random_unit 1))
    as (b0 & _ & Hb0 & _).
  destruct (createRandomBlock_spawn _ _ (random_unit 2) (random_unit 3))
    as (b1 & _ & Hb1 & _).
  exists b0, b1. repeat split; try assumption.
  unfold initialStateWithNextShape, initialState.
  rewrite Hb0, Hb1. reflexivity.
Qed.

Lemma main_ok w : main random = Ok w -> worldOk w.
Proof.
  destruct initialStateWithNextShape_inv as (b0 & b1 & Hb0 & Hb1 & Hinit).
  unfold main. rewrite Hinit. cbn [bind fst snd]. intros H. inversion H.
  unfold worldOk. cbn [state heap gameBoard currentBlock nextBlock length].
  refine (conj emptyBoard_ok (conj _ (conj _ (conj _ _)))); try lia.
  repeat constructor; eapply spawned_blockOk; eauto.
Qed.

Lemma reducer_preserves_ok w e w' :
  worldOk w -> reducer random w e = Ok w' -> worldOk w'.
Proof.
  intros (Hboard & Hheap & Hcur & Hnext & Htwo) Hstep.
  apply reducer_inv in Hstep
    as [->
       |[(dx & dy & cur & Hdy & Hlook & Hvalid & ->)
       |[(fresh & _ & _ & _ & Hfresh & ->)
       |[(cur & _ & _ & Hlook & Hvalid & ->)
       |(board & over & _ & _ & _ & Hlock & _ & Hcase)]]]].
  - exact (conj Hboard (conj Hheap (conj Hcur (conj Hnext Htwo)))).
  - unfold worldOk. cbn [state heap]. rewrite length_insert.
    refine (conj Hboard (conj _ (conj Hcur (conj Hnext Htwo)))).
    apply Forall_insert; [exact Hheap|].
    eapply moved_blockOk; [|exact Hdy|exact Hvalid].
    exact (Forall_lookup_1 _ _ _ _ Hheap Hlook).
  - destruct initialStateWithNextShape_inv as (b0 & b1 & _ & _ & Hinit).
    unfold restartGame in Hfresh. rewrite Hinit in Hfresh.
    cbn [bind snd] in Hfresh. inversion Hfresh. subst fresh.
    unfold worldOk.
    cbn [state heap gameBoard currentBlock nextBlock set_highScore
         set_canRestart set_gameBoard].
    refine (conj emptyBoard_ok (conj Hheap (conj _ (conj _ Htwo)))); lia.
  - unfold worldOk. cbn [state heap gameBoard currentBlock nextBlock
                         set_currentBlock].
    rewrite length_app. cbn [length].
    refine (conj Hboard (conj _ (conj _ (conj _ _)))); try lia.
    apply Forall_app. split; [exact Hheap|]. constructor; [|constructor].
    apply (moved_blockOk (gameBoard (state w)) cur 0 1) in Hvalid;
      [|exact (Forall_lookup_1 _ _ _ _ Hheap Hlook)|lia].
    unfold set_y. rewrite Z.add_0_r in Hvalid. exact Hvalid.
  - assert (Hboard' : boardOk board).
    { destruct (lockedBoard_inv _ _ _ Hlock)
        as (cur & stacked & Hlook & Hst & <-).
      destruct (stackBlock_ok (gameBoard (state w)) cur (state w) Hboard
                  (Forall_lookup_1 _ _ _ _ Hheap Hlook))
        as (stacked' & Hst' & Hok).
      rewrite Hst in Hst'. inversion Hst'. subst stacked'. exact Hok. }
    pose proof (landed_ok (state w) board over Hboard') as Hlanded.
    destruct (landed_refs (state w) board over) as (Hc & Hn & _).
    cbv zeta in Hcase.
    destruct Hcase as [(-> & ->)|(-> & nb & Hnb & ->)].
    + unfold worldOk. cbn [state heap gameBoard currentBlock nextBlock
                           set_highScore set_canRestart set_gameEnd].
      rewrite Hc, Hn.
      exact (conj Hlanded (conj Hheap (conj Hcur (conj Hnext Htwo)))).
    + unfold worldOk. cbn [state heap gameBoard currentBlock nextBlock
                           set_nextBlockShape set_nextBlock set_currentBlock].
      rewrite Hn, length_app. cbn [length].
      refine (conj Hlanded (conj _ (conj _ (conj _ _)))); try lia.
      apply Forall_app. split; [exact Hheap|]. constructor; [|constructor].
      eapply spawned_blockOk; [| |exact Hnb]; apply random_unit.
Qed.

Lemma reachable_ok w : reachable random w -> worldOk w.
Proof.
  induction 1 as [w Hmain|w e w' _ IH Hstep].
  - apply main_ok. exact Hmain.
  - eapply reducer_preserves_ok; eassumption.
Qed.

(** On a well-formed world the reducer returns a next world for every
    event. *)
Lemma reducer_total w e : worldOk w -> exists w', reducer random w e = Ok w'.
Proof.
  intros (Hboard & Hheap & Hcur & Hnext & Htwo).
  destruct (lookup_lt_is_Some_2 _ _ Hcur) as (cur & Hlook).
  pose proof (Forall_lookup_1 _ _ _ _ Hheap Hlook) as Hcurok.
  assert (Hmove : forall dx dy,
             exists w', (let* valid := isValidMove (heap w) (state w) dx dy in
                         if valid then moveCurrent w dx dy else Ok w) = Ok w').
  { intros dx dy. unfold isValidMove, moveCurrent, deref. rewrite Hlook.
    cbn [bind].
    destruct (validCells_ok (gameBoard (state w)) cur dx dy Hboard)
      as (valid & ->).
    cbn [bind]. destruct valid; eauto. }
  destruct e as [[| | |]|].
  - apply Hmove.
  - apply Hmove.
  - apply Hmove.
  - cbn [reducer].
    destruct (canRestart (state w)); [|eauto].
    destruct (gameEnd (state w)); [|eauto].
    destruct initialStateWithNextShape_inv as (b0 & b1 & _ & _ & Hinit).
    unfold restartGame. rewrite Hinit. cbn [bind]. eauto.
  - cbn [reducer].
    destruct (gameEnd (state w)); [eauto|].
    unfold isValidMove, deref. rewrite Hlook. cbn [bind].
    destruct (validCells_ok (gameBoard (state w)) cur 0 1 Hboard)
      as (valid & ->).
    cbn [bind]. destruct valid; cbn [negb]; [eauto|].
    destruct (stackBlock_ok (gameBoard (state w)) cur (state w) Hboard Hcurok)
      as (stacked & -> & Hstacked).
    cbn [bind gameBoard set_gameBoard].
    destruct (isGameOver_ok _ Hstacked) as (over & ->).
    cbn [bind]. destruct over; [eauto|].
    destruct (createRandomBlock_spawn _ _ (random_unit (draws w))
                (random_unit (S (draws w)))) as (nb & _ & -> & _).
    cbn [bind]. eauto.
Qed.

End WellFormed.

(** ** Runs of the reducer *)

Lemma run_reachable random events w w' :
  reachable random w -> run random events w = Ok w' -> reachable random w'.
Proof.
  revert w. induction events as [|e rest IH]; intros w Hw Hrun; simpl in Hrun.
  - inversion Hrun. subst w'. exact Hw.
  - destruct (reducer random w e) as [w1| |] eqn:Hstep; try discriminate Hrun.
    cbn [bind] in Hrun. eapply IH; [|exact Hrun].
    eapply reach_step; eassumption.
Qed.

Lemma play_reachable random events w :
  play random events = Ok w -> reachable random w.
Proof.
  unfold play. destruct (main random) as [w0| |] eqn:Hmain; try discriminate.
  cbn [bind]. apply run_reachable. apply reach_main. exact Hmain.
Qed.

Lemma stream_unit values :
  Forall Double.unit_interval values ->
  forall i, Double.unit_interval (stream values i).
Proof.
  intros Hall i. unfold stream. revert i.
  induction Hall as [|v rest Hv _ IH]; intros [|i]; simpl;
    try exact Hv; try apply IH; unfold Double.unit_interval; lia.
Qed.

Lemma squares_unit i : Double.unit_interval (squares i).
Proof. unfold squares, Double.unit_interval. lia. Qed.

Lemma squaresStart_main : main squares = Ok squaresStart.
Proof. vm_compute. reflexivity. Qed.

Lemma squaresDropped_play :
  play squares (repeat (KeyboardEvent KeyS) 18) = Ok squaresDropped.
Proof. vm_compute. reflexivity. Qed.

Lemma squaresTopped_play : play squares squaresPiled = Ok squaresTopped.
Proof. vm_compute. reflexivity. Qed.

Lemma squaresOver_play : play squares (squaresPiled ++ [Tick]) = Ok squaresOver.
Proof. vm_compute. reflexivity. Qed.

Lemma twoRowsWorld_play : play twoRowsRandom twoRowsEvents = Ok twoRowsWorld.
Proof. vm_compute. reflexivity. Qed.

Lemma sBlockOver_play : play sBlockRandom sBlockEvents = Ok sBlockOver.
Proof. vm_compute. reflexivity. Qed.

(** ** Invariants of the reachable worlds *)

Section Invariants.

Variable random : nat -> Z.

Lemma main_state w :
  main random = Ok w ->
  gameEnd (state w) = false
  /\ canRestart (state w) = false
  /\ gameBoard (state w) = emptyBoard
  /\ currentBlock (state w) = 0%nat
  /\ nextBlock (state w) = 1%nat
  /\ score (state w) = 0
  /\ highScore (state w) = 0
  /\ level (state w) = 1
  /\ restartGame random = Ok (set_gameBoard emptyBoard (state w)).
Proof.
  unfold main, restartGame.
  destruct (initialStateWithNextShape random) as [[h s]| |] eqn:Hinit;
    try discriminate.
  cbn [bind fst snd]. intros H. inversion H. cbn [state].
  unfold initialStateWithNextShape, initialState in Hinit.
  destruct (createRandomBlock (random 0) (random 1)); try discriminate Hinit.
  destruct (createRandomBlock (random 2) (random 3)); try discriminate Hinit.
  cbn in Hinit. inversion Hinit. repeat split.
Qed.

Lemma restartGame_state fresh :
  restartGame random = Ok fresh ->
  gameEnd fresh = false
  /\ canRestart fresh = false
  /\ gameBoard fresh = emptyBoard
  /\ currentBlock fresh = 0%nat
  /\ nextBlock fresh = 1%nat
  /\ score fresh = 0
  /\ level fresh = 1.
Proof.
  unfold restartGame.
  destruct (initialStateWithNextShape random) as [[h s]| |] eqn:Hinit;
    try discriminate.
  cbn [bind fst snd]. intros H. inversion H.
  unfold initialStateWithNextShape, initialState in Hinit.
  destruct (createRandomBlock (random 0) (random 1)); try discriminate Hinit.
  destruct (createRandomBlock (random 2) (random 3)); try discriminate Hinit.
  cbn in Hinit. inversion Hinit. repeat split.
Qed.

Lemma reducer_gate w e w' :
  reducer random w e = Ok w' ->
  (canRestart (state w) = true -> gameEnd (state w) = true) ->
  canRestart (state w') = true -> gameEnd (state w') = true.
Proof.
  intros Hstep Hw.
  apply reducer_inv in Hstep
    as [->
       |[(dx & dy & cur & _ & _ & _ & ->)
       |[(fresh & _ & _ & _ & Hfresh & ->)
       |[(cur & _ & _ & _ & _ & ->)
       |(board & over & _ & Hend & _ & _ & _ & Hcase)]]]].
  - exact Hw.
  - exact Hw.
  - cbn. discriminate.
  - exact Hw.
  - cbv zeta in Hcase.
    destruct (landed_refs (state w) board over) as (_ & _ & _ & Hcr & Hge).
    destruct Hcase as [(-> & ->)|(-> & nb & _ & ->)].
    + reflexivity.
    + cbn [state canRestart gameEnd set_nextBlockShape set_nextBlock
           set_currentBlock].
      rewrite Hcr, Hge. exact Hw.
Qed.

Lemma reducer_highScore w e w' :
  reducer random w e = Ok w' -> highScore (state w) <= highScore (state w').
Proof.
  intros Hstep.
  apply reducer_inv in Hstep
    as [->
       |[(dx & dy & cur & _ & _ & _ & ->)
       |[(fresh & _ & _ & _ & Hfresh & ->)
       |[(cur & _ & _ & _ & _ & ->)
       |(board & over & _ & Hend & _ & _ & _ & Hcase)]]]].
  - lia.
  - cbn. lia.
  - cbn. lia.
  - cbn. lia.
  - cbv zeta in Hcase.
    destruct (landed_refs (state w) board over) as (_ & _ & Hhs & _).
    destruct Hcase as [(-> & ->)|(-> & nb & _ & ->)].
    + cbn [state highScore set_highScore]. rewrite Hhs. lia.
    + cbn [state highScore set_nextBlockShape set_nextBlock
           set_currentBlock].
      rewrite Hhs. lia.
Qed.

(** C8. In every world reachable from the program's start, [canRestart] is
    set only if [gameEnd] is set. *)
Theorem canRestart_implies_gameEnd (w : World) :
  reachable random w ->
  canRestart (state w) = true -> gameEnd (state w) = true.
Proof.
  induction 1 as [w Hmain|w e w' _ IH Hstep].
  - destruct (main_state w Hmain) as (_ & Hcr & _). rewrite Hcr. discriminate.
  - eapply reducer_gate; eassumption.
Qed.

(** C9. From every world reachable from the program's start, every event
    yields a next world, and its [highScore] is at least the previous one. *)
Theorem highScore_never_decreases (w : World) (e : Event) :
  (forall i, Double.unit_interval (random i)) ->
  reachable random w ->
  exists w',
    reducer random w e = Ok w'
    /\ highScore (state w) <= highScore (state w').
Proof.
  intros Hrandom Hw.
  destruct (reducer_total random Hrandom w e (reachable_ok random Hrandom w Hw))
    as (w' & Hstep).
  exists w'. split; [exact Hstep|]. eapply reducer_highScore. exact Hstep.
Qed.

(** C4, as the code has it.  The restart key leaves the world unchanged
    when [canRestart] or [gameEnd] is not set.  Otherwise, [w0] being the
    world the program started in, it returns the initial state with a new
    empty board: score 0, level 1, [gameEnd] and [canRestart] cleared,
    [highScore] the larger of the previous high score and the previous
    score; [currentBlock] and
    [nextBlock] are the references of the initial state, the store of blocks
    is untouched and no random value is drawn. *)
Theorem restart_resets_or_ignores (w0 w : World) :
  (canRestart (state w) = false \/ gameEnd (state w) = false ->
   reducer random w (KeyboardEvent KeyR) = Ok w)
  /\ (main random = Ok w0 ->
      canRestart (state w) = true -> gameEnd (state w) = true ->
      exists w',
        reducer random w (KeyboardEvent KeyR) = Ok w'
        /\ gameBoard (state w') = emptyBoard
        /\ score (state w') = 0
        /\ level (state w') = 1
        /\ gameEnd (state w') = false
        /\ canRestart (state w') = false
        /\ highScore (state w')
           = Z.max (highScore (state w)) (score (state w))
        /\ currentBlock (state w') = currentBlock (state w0)
        /\ nextBlock (state w') = nextBlock (state w0)
        /\ nextBlockShape (state w') = nextBlockShape (state w0)
        /\ heap w' = heap w
        /\ draws w' = draws w).
Proof.
  split.
  - intros [H|H]; cbn [reducer]; rewrite H; [reflexivity|].
    destruct (canRestart (state w)); reflexivity.
  - intros Hmain Hcr Hge. cbn [reducer]. rewrite Hcr, Hge.
    destruct (main_state w0 Hmain)
      as (Hge0 & Hcr0 & _ & _ & _ & Hsc & _ & Hlv & ->).
    cbn [bind]. rewrite updatedHighScore_max.
    eexists. split; [reflexivity|].
    cbn [state heap draws gameEnd gameBoard currentBlock nextBlock
         nextBlockShape score canRestart highScore level
         set_highScore set_canRestart set_gameBoard].
    repeat (split; [first [reflexivity | assumption]|]). reflexivity.
Qed.

End Invariants.

(** ** The claims on concrete games *)

(** C1, on the code.  In the reachable world [twoRowsWorld] the tick locks
    the square and the two bottom rows of the stacked board are full.  The
    specification's clearing step leaves an empty board; the loop of the
    reducer removes the bottom row, then the empty row 17 instead of the
    second full row, which stays at the bottom of the resulting board. *)
Theorem clearing_two_full_rows_keeps_one :
  play twoRowsRandom twoRowsEvents = Ok twoRowsWorld
  /\ lockedBoard (heap twoRowsWorld) (state twoRowsWorld) = Ok twoRowsLocked
  /\ Spec.resolveClears twoRowsLocked = (emptyBoard, 2%nat)
  /\ exists w',
       reducer twoRowsRandom twoRowsWorld Tick = Ok w'
       /\ gameBoard (state w') = repeat emptyRow 19 ++ [repeat 1 10]
       /\ gameBoard (state w') <> fst (Spec.resolveClears twoRowsLocked).
Proof.
  split; [exact twoRowsWorld_play|].
  split; [vm_compute; reflexivity|].
  split; [vm_compute; reflexivity|].
  eexists. split; [vm_compute; reflexivity|].
  split; [vm_compute; reflexivity|].
  vm_compute. discriminate.
Qed.

(** C3, on the code.  [sBlockOver] is a reachable world in which the game
    has ended; the key A still moves its current block from column 4 to
    column 3. *)
Theorem move_left_after_game_over :
  play sBlockRandom sBlockEvents = Ok sBlockOver
  /\ gameEnd (state sBlockOver) = true
  /\ activeBlock sBlockOver
     = Some {| shape := [[0; 1; 1]; [1; 1; 0]]; x := 4; y := 0 |}
  /\ exists w',
       reducer sBlockRandom sBlockOver (KeyboardEvent KeyA) = Ok w'
       /\ activeBlock w'
          = Some {| shape := [[0; 1; 1]; [1; 1; 0]]; x := 3; y := 0 |}
       /\ w' <> sBlockOver.
Proof.
  split; [exact sBlockOver_play|].
  split; [reflexivity|].
  split; [reflexivity|].
  eexists. split; [vm_compute; reflexivity|].
  split; [reflexivity|].
  intros H. inversion H.
Qed.

Lemma createRandomBlock_row r1 r2 b :
  createRandomBlock r1 r2 = Ok b -> y b = 0.
Proof.
  unfold createRandomBlock.
  destruct (index blockTypes _) as [sh|]; [|discriminate].
  destruct (index sh 0); [|discriminate].
  intros H. inversion H. reflexivity.
Qed.

(** C4, as stated, fails.  In the reachable world [squaresOver] the game has
    ended and [canRestart] is set; after the restart key the current block
    is the first block of the first game, still in row 18 where it was
    dropped, and the next block is in row 16: neither is a block the factory
    returns, and no random value has been drawn. *)
Theorem restart_pieces_are_not_fresh :
  play squares (squaresPiled ++ [Tick]) = Ok squaresOver
  /\ canRestart (state squaresOver) = true
  /\ gameEnd (state squaresOver) = true
  /\ exists w',
       reducer squares squaresOver (KeyboardEvent KeyR) = Ok w'
       /\ activeBlock w'
          = Some {| shape := [[1; 1]; [1; 1]]; x := 0; y := 18 |}
       /\ heap w' !! nextBlock (state w')
          = Some {| shape := [[1; 1]; [1; 1]]; x := 0; y := 16 |}
       /\ draws w' = draws squaresOver
       /\ forall r1 r2 b,
            createRandomBlock r1 r2 = Ok b ->
            activeBlock w' <> Some b
            /\ heap w' !! nextBlock (state w') <> Some b.
Proof.
  split; [exact squaresOver_play|].
  split; [reflexivity|].
  split; [reflexivity|].
  eexists. split; [vm_compute; reflexivity|].
  split; [reflexivity|].
  split; [reflexivity|].
  split; [reflexivity|].
  intros r1 r2 b Hb. apply createRandomBlock_row in Hb.
  split; intros H; inversion H; subst b; discriminate Hb.
Qed.

(** ** Instances of the theorems on the concrete games *)

Lemma dyadic_half_unit : Double.unit_interval (Double.dyadic 1 1).
Proof.
  unfold Double.unit_interval.
  split; apply Z.leb_le; vm_compute; reflexivity.
Defined.

Lemma createRandomBlock_half_witness :
  Double.unit_interval (Double.dyadic 1 1)
  /\ exists b row0,
       createRandomBlock (Double.dyadic 1 1) (Double.dyadic 1 1) = Ok b
       /\ length blockTypes = 7%nat
       /\ In (shape b) blockTypes
       /\ y b = 0
       /\ shape b !! 0%nat = Some row0
       /\ 0 <= x b <= Constants.GRID_WIDTH - Z.of_nat (length row0)
       /\ forall (rowIndex colIndex : nat) row,
            shape b !! rowIndex = Some row ->
            row !! colIndex = Some 1 ->
            0 <= x b + Z.of_nat colIndex < Constants.GRID_WIDTH.
Proof.
  split; [exact dyadic_half_unit|].
  apply (createRandomBlock_in_catalogue_and_range
           (Double.dyadic 1 1) (Double.dyadic 1 1));
    exact dyadic_half_unit.
Defined.

Lemma isValidMove_squaresStart_witness :
  heap squaresStart !! currentBlock (state squaresStart)
  = Some {| shape := [[1; 1]; [1; 1]]; x := 0; y := 0 |}
  /\ (isValidMove (heap squaresStart) (state squaresStart) 1 0 = Ok true <->
      forall (rowIndex colIndex : nat) row,
        [[1; 1]; [1; 1]] !! rowIndex = Some row ->
        row !! colIndex = Some 1 ->
        0 <= 0 + Z.of_nat colIndex + 1 < Constants.GRID_WIDTH
        /\ 0 + Z.of_nat rowIndex + 0 < Constants.GRID_HEIGHT
        /\ (0 + Z.of_nat rowIndex + 0 < 0
            \/ exists brow,
                 emptyBoard !! Z.to_nat (0 + Z.of_nat rowIndex + 0)
                 = Some brow
                 /\ brow !! Z.to_nat (0 + Z.of_nat colIndex + 1) = Some 0)).
Proof.
  split; [reflexivity|].
  apply (isValidMove_accepts_iff (heap squaresStart) (state squaresStart)
           {| shape := [[1; 1]; [1; 1]]; x := 0; y := 0 |} 1 0).
  reflexivity.
Defined.

Lemma squaresDropped_tick_witness :
  isValidMove (heap squaresDropped) (state squaresDropped) 0 1 = Ok false
  /\ exists w',
       reducer squares squaresDropped Tick = Ok w'
       /\ score (state w') = score (state squaresDropped) + 1
       /\ level (state w') = level (state squaresDropped).
Proof.
  split; [vm_compute; reflexivity|].
  apply (tick_landing_without_full_row squares squaresDropped
           (repeat emptyRow 18
            ++ repeat [1; 1; 0; 0; 0; 0; 0; 0; 0; 0] 2)).
  - reflexivity.
  - vm_compute; reflexivity.
  - vm_compute; reflexivity.
  - vm_compute; reflexivity.
  - vm_compute; reflexivity.
  - apply squares_unit.
  - apply squares_unit.
Defined.

Lemma squaresTopped_tick_witness :
  isValidMove (heap squaresTopped) (state squaresTopped) 0 1 = Ok false
  /\ exists w',
       reducer squares squaresTopped Tick = Ok w'
       /\ gameEnd (state w') = true
       /\ canRestart (state w') = true
       /\ score (state w')
          = score (state squaresTopped)
            + 10 * fullRowCount (repeat [1; 1; 0; 0; 0; 0; 0; 0; 0; 0] 20)
       /\ level (state w')
          = level (state squaresTopped)
            + fullRowCount (repeat [1; 1; 0; 0; 0; 0; 0; 0; 0; 0] 20)
       /\ highScore (state w')
          = Z.max (highScore (state squaresTopped)) (score (state w'))
       /\ currentBlock (state w') = currentBlock (state squaresTopped)
       /\ nextBlock (state w') = nextBlock (state squaresTopped)
       /\ activeBlock w' = activeBlock squaresTopped
       /\ heap w' = heap squaresTopped.
Proof.
  split; [vm_compute; reflexivity|].
  apply (tick_game_over squares squaresTopped
           (repeat [1; 1; 0; 0; 0; 0; 0; 0; 0; 0] 20)
           [1; 1; 0; 0; 0; 0; 0; 0; 0; 0]).
  - reflexivity.
  - vm_compute; reflexivity.
  - vm_compute; reflexivity.
  - reflexivity.
  - left; reflexivity.
Defined.

Lemma twoRowsWorld_tick_witness :
  lockedBoard (heap twoRowsWorld) (state twoRowsWorld) = Ok twoRowsLocked
  /\ fullRowCount twoRowsLocked = 2
  /\ exists w',
       reducer twoRowsRandom twoRowsWorld Tick = Ok w'
       /\ score (state w') = score (state twoRowsWorld) + 1 + 10 * 2
       /\ level (state w') = level (state twoRowsWorld) + 2.
Proof.
  split; [vm_compute; reflexivity|].
  split; [vm_compute; reflexivity|].
  apply (tick_landing_with_full_rows twoRowsRandom twoRowsWorld
           twoRowsLocked 2).
  - reflexivity.
  - vm_compute; reflexivity.
  - vm_compute; reflexivity.
  - vm_compute; reflexivity.
  - lia.
  - vm_compute; reflexivity.
  - change (twoRowsRandom (draws twoRowsWorld)) with 0.
    unfold Double.unit_interval. lia.
  - change (twoRowsRandom (S (draws twoRowsWorld))) with 0.
    unfold Double.unit_interval. lia.
Defined.

Lemma squaresOver_gate_witness :
  canRestart (state squaresOver) = true /\ gameEnd (state squaresOver) = true.
Proof.
  split; [reflexivity|].
  apply (canRestart_implies_gameEnd squares squaresOver).
  - apply (play_reachable squares (squaresPiled ++ [Tick])).
    exact squaresOver_play.
  - reflexivity.
Defined.

Lemma squaresTopped_highScore_witness :
  exists w',
    reducer squares squaresTopped Tick = Ok w'
    /\ highScore (state squaresTopped) <= highScore (state w').
Proof.
  apply (highScore_never_decreases squares squaresTopped Tick).
  - exact squares_unit.
  - apply (play_reachable squares squaresPiled). exact squaresTopped_play.
Defined.

Lemma squaresOver_restart_witness :
  main squares = Ok squaresStart
  /\ canRestart (state squaresOver) = true
  /\ gameEnd (state squaresOver) = true
  /\ exists w',
       reducer squares squaresOver (KeyboardEvent KeyR) = Ok w'
       /\ gameBoard (state w') = emptyBoard
       /\ score (state w') = 0
       /\ level (state w') = 1
       /\ gameEnd (state w') = false
       /\ canRestart (state w') = false
       /\ highScore (state w')
          = Z.max (highScore (state squaresOver)) (score (state squaresOver))
       /\ currentBlock (state w') = currentBlock (state squaresStart)
       /\ nextBlock (state w') = nextBlock (state squaresStart)
       /\ nextBlockShape (state w') = nextBlockShape (state squaresStart)
       /\ heap w' = heap squaresOver
       /\ draws w' = draws squaresOver.
Proof.
  split; [exact squaresStart_main|].
  split; [reflexivity|].
  split; [reflexivity|].
  apply (restart_resets_or_ignores squares squaresStart squaresOver);
    [exact squaresStart_main | reflexivity | reflexivity].
Defined.

(** * Further properties of the code *)

(** ** Invariants of the reachable worlds *)

(** X1. Every world the program reaches is well formed: the board has
    GRID_HEIGHT rows of GRID_WIDTH cells, and the current and the next
    block exist, lie at or below row 0 and have all their occupied cells
    inside the grid. *)
Theorem reachable_worlds_are_well_formed (random : nat -> Z) (w : World) :
  (forall i, Double.unit_interval (random i)) ->
  reachable random w ->
  worldOk w
  /\ exists cur next,
       heap w !! currentBlock (state w) = Some cur
       /\ heap w !! nextBlock (state w) = Some next
       /\ blockOk cur
       /\ blockOk next.
Proof.
  intros Hrandom Hw.
  pose proof (reachable_ok random Hrandom w Hw) as Hok.
  split; [exact Hok|].
  destruct Hok as (_ & Hheap & Hcur & Hnext & _).
  destruct (lookup_lt_is_Some_2 _ _ Hcur) as (cur & Hc).
  destruct (lookup_lt_is_Some_2 _ _ Hnext) as (next & Hn).
  exists cur, next.
  split; [exact Hc|]. split; [exact Hn|].
  split; eapply Forall_lookup_1; eassumption.
Qed.

(** X2. From a well-formed world the reducer throws on no event: it
    returns a next world, which is well formed again. *)
Theorem reducer_steps_from_well_formed (random : nat -> Z) (w : World)
    (e : Event) :
  (forall i, Double.unit_interval (random i)) ->
  worldOk w ->
  exists w', reducer random w e = Ok w' /\ worldOk w'.
Proof.
  intros Hrandom Hok.
  destruct (reducer_total random Hrandom w e Hok) as (w' & Hstep).
  exists w'. split; [exact Hstep|].
  eapply reducer_preserves_ok; eassumption.
Qed.

(** X3. The keys A, D and S change nothing but the current block object:
    the state record, the number of random draws and every other block
    are as before, and the current block keeps its shape and moves by at
    most one column or one row down. *)
Theorem movement_keys_only_move_current_block (random : nat -> Z)
    (w w' : World) (code : Code) :
  code <> KeyR ->
  reducer random w (KeyboardEvent code) = Ok w' ->
  state w' = state w
  /\ draws w' = draws w
  /\ length (heap w') = length (heap w)
  /\ (forall r, r <> currentBlock (state w) -> heap w' !! r = heap w !! r)
  /\ exists cur cur',
       activeBlock w = Some cur
       /\ activeBlock w' = Some cur'
       /\ shape cur' = shape cur
       /\ x cur - 1 <= x cur' <= x cur + 1
       /\ y cur <= y cur' <= y cur + 1.
Proof.
  intros Hcode Hstep.
  assert (Hmove : exists dx dy,
             -1 <= dx <= 1 /\ 0 <= dy <= 1
             /\ (let* valid := isValidMove (heap w) (state w) dx dy in
                 if valid then moveCurrent w dx dy else Ok w) = Ok w').
  { destruct code; [exists (-1), 0|exists 1, 0|exists 0, 1|congruence];
      (split; [lia|]; split; [lia|]; exact Hstep). }
  destruct Hmove as (dx & dy & Hdx & Hdy & Hrun).
  assert (Hcur : exists cur, heap w !! currentBlock (state w) = Some cur).
  { unfold isValidMove, deref in Hrun.
    destruct (heap w !! currentBlock (state w)) as [cur|];
      [eauto | discriminate Hrun]. }
  destruct Hcur as (cur & Hcur).
  apply move_inv in Hrun as [->|(cur0 & Hcur0 & _ & ->)].
  - do 3 (split; [reflexivity|]). split; [reflexivity|].
    exists cur, cur. unfold activeBlock.
    repeat split; try assumption; lia.
  - rewrite Hcur in Hcur0. inversion Hcur0. subst cur0.
    cbn [state draws heap]. rewrite length_insert.
    do 3 (split; [reflexivity|]).
    split.
    + intros r Hr. apply list_lookup_insert_ne. congruence.
    + exists cur. eexists. unfold activeBlock. cbn [state heap].
      split; [exact Hcur|].
      split; [apply list_lookup_insert_eq; eapply lookup_lt_Some; eassumption|].
      cbn [shape x y]. repeat split; lia.
Qed.


Lemma fullRowCount_nonneg board : 0 <= fullRowCount board.
Proof. unfold fullRowCount. lia. Qed.

(** X5. In every world the program reaches, the high score is not
    negative, the level is at least 1, the score is at least ten times the
    number of levels gained, and once the game has ended the high score is
    at least the score. *)
Theorem score_and_level_bounds (random : nat -> Z) (w : World) :
  reachable random w ->
  0 <= highScore (state w)
  /\ 1 <= level (state w)
  /\ 10 * (level (state w) - 1) <= score (state w)
  /\ (gameEnd (state w) = true -> score (state w) <= highScore (state w)).
Proof.
  induction 1 as [w Hmain|w e w' _ IH Hstep].
  - destruct (main_state random w Hmain)
      as (Hge & _ & _ & _ & _ & Hsc & Hhs & Hlv & _).
    rewrite Hge, Hsc, Hhs, Hlv.
    repeat split; intros; first [lia | discriminate].
  - destruct IH as (Hhs & Hlv & Hsc & Hover).
    apply reducer_inv in Hstep
      as [->
         |[(dx & dy & cur & _ & _ & _ & ->)
         |[(fresh & _ & _ & _ & Hfresh & ->)
         |[(cur & _ & _ & _ & _ & ->)
         |(board & over & _ & Hend & _ & _ & _ & Hcase)]]]].
    + auto.
    + auto.
    + destruct (restartGame_state random fresh Hfresh)
        as (Hge' & _ & _ & _ & _ & Hsc' & Hlv').
      cbn [state highScore level score gameEnd set_highScore set_canRestart].
      rewrite Hge', Hsc', Hlv'.
      repeat split; intros; first [lia | discriminate].
    + auto.
    + cbv zeta in Hcase.
      pose proof (landed_score (state w) board over) as Hs.
      pose proof (landed_level (state w) board over) as Hl.
      pose proof (fullRowCount_nonneg board) as Hk.
      destruct (landed_refs (state w) board over)
        as (_ & _ & Hhs' & _ & Hge').
      destruct Hcase as [(-> & ->)|(-> & nb & _ & ->)].
      * cbn [state highScore level score gameEnd set_highScore set_canRestart
             set_gameEnd].
        rewrite Hs, Hl, Hhs'. repeat split; lia.
      * cbn [state highScore level score gameEnd set_nextBlockShape
             set_nextBlock set_currentBlock].
        rewrite Hs, Hl, Hhs', Hge', Hend.
        repeat split; intros; first [lia | discriminate].
Qed.

Lemma clearLoop_top_row rows yy s :
  isGameOver (gameBoard s) = Ok false ->
  isGameOver (gameBoard (clearLoop rows yy s)) = Ok false.
Proof.
  revert yy s. induction rows as [|row rest IH]; intros yy s Hs.
  - exact Hs.
  - cbn [clearLoop]. apply IH.
    destruct (isFullRow row); [reflexivity | exact Hs].
Qed.

(** X6. While the game is running, row 0 of the board holds no occupied
    cell: [isGameOver] is false on the board of every reachable world whose
    [gameEnd] is not set. *)
Theorem top_row_is_empty_while_running (random : nat -> Z) (w : World) :
  reachable random w ->
  gameEnd (state w) = false ->
  isGameOver (gameBoard (state w)) = Ok false.
Proof.
  induction 1 as [w Hmain|w e w' _ IH Hstep].
  - destruct (main_state random w Hmain) as (_ & _ & -> & _). reflexivity.
  - apply reducer_inv in Hstep
      as [->
         |[(dx & dy & cur & _ & _ & _ & ->)
         |[(fresh & _ & _ & _ & Hfresh & ->)
         |[(cur & _ & _ & _ & _ & ->)
         |(board & over & _ & Hend & _ & _ & Hover & Hcase)]]]].
    + exact IH.
    + exact IH.
    + destruct (restartGame_state random fresh Hfresh)
        as (_ & _ & Hb & _).
      cbn [state gameBoard set_highScore set_canRestart]. rewrite Hb.
      reflexivity.
    + exact IH.
    + cbv zeta in Hcase.
      destruct Hcase as [(-> & ->)|(-> & nb & _ & ->)].
      * cbn. discriminate.
      * intros _.
        cbn [state gameBoard set_nextBlockShape set_nextBlock
             set_currentBlock].
        unfold landed, clearFullRows. apply clearLoop_top_row.
        exact Hover.
Qed.

(** ** Stacking a block *)

Lemma forEach_from_ind {A St : Type} (P : nat -> St -> Prop)
    (f : St -> A -> Z -> result St) arr i acc :
  P 0%nat acc ->
  (forall acc0 (k : nat) a,
     arr !! k = Some a -> P k acc0 ->
     exists acc1, f acc0 a (i + Z.of_nat k) = Ok acc1 /\ P (S k) acc1) ->
  exists acc', forEach_from f arr i acc = Ok acc' /\ P (length arr) acc'.
Proof.
  revert P i acc.
  induction arr as [|a rest IH]; intros P i acc Hacc Hf; simpl.
  - eauto.
  - destruct (Hf acc 0%nat a eq_refl Hacc) as (acc1 & Hstep & Hacc1).
    rewrite Z.add_0_r in Hstep. rewrite Hstep. cbn [bind].
    apply (IH (fun k => P (S k))); [exact Hacc1|].
    intros acc0 k a' Hk Hacc0.
    replace (i + 1 + Z.of_nat k) with (i + Z.of_nat (S k)) by lia.
    apply Hf; assumption.
Qed.

Lemma setCell_spec board boardY boardX :
  boardOk board ->
  0 <= boardY < Constants.GRID_HEIGHT ->
  0 <= boardX < Constants.GRID_WIDTH ->
  exists board',
    setCell board boardY boardX = Ok board'
    /\ boardOk board'
    /\ cellAt board' boardY boardX = Some 1
    /\ forall yy xx,
         yy <> boardY \/ xx <> boardX ->
         cellAt board' yy xx = cellAt board yy xx.
Proof.
  intros Hboard Hy Hx.
  destruct (setCell_ok board boardY boardX Hboard Hy Hx)
    as (board' & Hset & Hboard').
  exists board'. split; [exact Hset|]. split; [exact Hboard'|].
  unfold setCell in Hset.
  destruct (boardOk_row board _ Hboard Hy) as (row & Hrow & Hlen).
  rewrite Hrow in Hset.
  unfold index in Hrow, Hset.
  destruct (boardY <? 0) eqn:HnegY; [apply Z.ltb_lt in HnegY; lia|].
  destruct (boardX <? 0) eqn:HnegX; [apply Z.ltb_lt in HnegX; lia|].
  destruct (row !! Z.to_nat boardX) as [cell|] eqn:Hcell;
    [|discriminate Hset].
  inversion Hset. subst board'. clear Hset.
  assert (Hny : (Z.to_nat boardY < length board)%nat)
    by (eapply lookup_lt_Some; exact Hrow).
  assert (Hnx : (Z.to_nat boardX < length row)%nat)
    by (eapply lookup_lt_Some; exact Hcell).
  split.
  - unfold cellAt, index. rewrite HnegY, HnegX.
    rewrite list_lookup_insert_eq by exact Hny.
    apply list_lookup_insert_eq. exact Hnx.
  - intros yy xx Hne. unfold cellAt, index.
    destruct (yy <? 0) eqn:Hyy; [reflexivity|]. apply Z.ltb_ge in Hyy.
    destruct (Nat.eq_dec (Z.to_nat yy) (Z.to_nat boardY)) as [Heq|Hneq].
    + rewrite Heq. rewrite list_lookup_insert_eq by exact Hny.
      rewrite Hrow.
      destruct (xx <? 0) eqn:Hxx; [reflexivity|]. apply Z.ltb_ge in Hxx.
      apply list_lookup_insert_ne. lia.
    + rewrite list_lookup_insert_ne by congruence. reflexivity.
Qed.

(** X7. On a board of GRID_HEIGHT by GRID_WIDTH cells, [stackBlock] with a
    block that lies inside the grid returns without an exception; the board
    it leaves has the same dimensions, holds 1 in every cell covered by the
    block and is unchanged in every other cell.  The state it returns is a
    copy with the score incremented by 1 (which the reducer drops). *)
Theorem stackBlock_stamps_the_block (board : list (list Z)) (b : Block)
    (s : State) :
  boardOk board ->
  blockOk b ->
  exists board' s',
    stackBlock board b s = Ok (board', s')
    /\ boardOk board'
    /\ (forall boardY boardX,
          covers b boardY boardX -> cellAt board' boardY boardX = Some 1)
    /\ (forall boardY boardX,
          ~ covers b boardY boardX ->
          cellAt board' boardY boardX = cellAt board boardY boardX)
    /\ score s' = score s + 1.
Proof.
  intros Hboard [Hy Hcells]. unfold stackBlock, forEach.
  set (rowsBelow := fun (k : nat) (yy xx : Z) =>
         exists (rowIdx colIdx : nat) row,
           (rowIdx < k)%nat
           /\ shape b !! rowIdx = Some row /\ row !! colIdx = Some 1
           /\ yy = y b + Z.of_nat rowIdx /\ xx = x b + Z.of_nat colIdx).
  set (P := fun (k : nat) (acc : list (list Z)) =>
         boardOk acc
         /\ (forall yy xx, rowsBelow k yy xx -> cellAt acc yy xx = Some 1)
         /\ (forall yy xx, ~ rowsBelow k yy xx ->
                           cellAt acc yy xx = cellAt board yy xx)).
  destruct (forEach_from_ind P
              (fun board row rowIdx =>
                 forEach_from
                   (fun board cell colIdx =>
                      if cell =? 1 then
                        if y b + rowIdx >=? 0
                        then setCell board (y b + rowIdx) (x b + colIdx)
                        else Ok board
                      else Ok board) row 0 board)
              (shape b) 0 board) as (board' & Hrun & HP).
  - split; [exact Hboard|]. split.
    + intros yy xx (rowIdx & _ & _ & Hlt & _). lia.
    + reflexivity.
  - intros acc0 rowIdx row Hrow (Hacc0 & Hset0 & Hkeep0).
    set (cellsBelow := fun (j : nat) (yy xx : Z) =>
           exists colIdx : nat,
             (colIdx < j)%nat /\ row !! colIdx = Some 1
             /\ yy = y b + Z.of_nat rowIdx /\ xx = x b + Z.of_nat colIdx).
    set (Q := fun (j : nat) (acc : list (list Z)) =>
           boardOk acc
           /\ (forall yy xx,
                 rowsBelow rowIdx yy xx \/ cellsBelow j yy xx ->
                 cellAt acc yy xx = Some 1)
           /\ (forall yy xx,
                 ~ (rowsBelow rowIdx yy xx \/ cellsBelow j yy xx) ->
                 cellAt acc yy xx = cellAt board yy xx)).
    destruct (forEach_from_ind Q
                (fun board cell colIdx =>
                   if cell =? 1 then
                     if y b + (0 + Z.of_nat rowIdx) >=? 0
                     then setCell board (y b + (0 + Z.of_nat rowIdx))
                            (x b + colIdx)
                     else Ok board
                   else Ok board) row 0 acc0) as (acc1 & Hrun1 & HQ).
    + split; [exact Hacc0|]. split.
      * intros yy xx [H|(colIdx & Hlt & _)]; [auto | lia].
      * intros yy xx Hn. apply Hkeep0. intros H. apply Hn. left. exact H.
    + intros acc j cell Hcell (Hacc & Hset & Hkeep).
      rewrite !Z.add_0_l.
      destruct (cell =? 1) eqn:Hc.
      * apply Z.eqb_eq in Hc. subst cell.
        destruct (Hcells rowIdx j row Hrow Hcell) as [Hx Hy'].
        replace (y b + Z.of_nat rowIdx >=? 0) with true
          by (symmetry; apply Z.geb_le; lia).
        destruct (setCell_spec acc (y b + Z.of_nat rowIdx)
                    (x b + Z.of_nat j) Hacc ltac:(lia) ltac:(lia))
          as (acc' & Hs & Hacc' & Hone & Hothers).
        exists acc'. split; [exact Hs|].
        split; [exact Hacc'|]. split.
        -- intros yy xx Hcov.
           destruct (Z.eq_dec yy (y b + Z.of_nat rowIdx)) as [->|Hyy];
             [destruct (Z.eq_dec xx (x b + Z.of_nat j)) as [->|Hxx]|].
           ++ exact Hone.
           ++ rewrite Hothers by (right; exact Hxx). apply Hset.
              destruct Hcov as [H|(colIdx & Hlt & Hc1 & Hyy & Hxx')];
                [left; exact H|].
              right. exists colIdx. repeat split; auto.
              assert (colIdx <> j) by (intros ->; lia). lia.
           ++ rewrite Hothers by (left; exact Hyy). apply Hset.
              destruct Hcov as [H|(colIdx & Hlt & Hc1 & Hyy' & Hxx')];
                [left; exact H | contradiction].
        -- intros yy xx Hn.
           assert (Hne : yy <> y b + Z.of_nat rowIdx
                         \/ xx <> x b + Z.of_nat j).
           { destruct (Z.eq_dec yy (y b + Z.of_nat rowIdx)) as [->|];
               [|auto].
             destruct (Z.eq_dec xx (x b + Z.of_nat j)) as [->|]; [|auto].
             exfalso. apply Hn. right. exists j. repeat split; auto. }
           rewrite Hothers by exact Hne. apply Hkeep.
           intros [H|(colIdx & Hlt & Hc1 & Hyy & Hxx)]; apply Hn;
             [left; exact H|].
           right. exists colIdx. repeat split; auto.
      * exists acc. split; [reflexivity|].
        split; [exact Hacc|]. split.
        -- intros yy xx [H|(colIdx & Hlt & Hc1 & Hyy & Hxx)];
             apply Hset; [left; exact H|].
           right. exists colIdx. repeat split; auto.
           assert (colIdx <> j)
             by (intros ->; rewrite Hcell in Hc1; inversion Hc1; subst;
                 discriminate Hc).
           lia.
        -- intros yy xx Hn. apply Hkeep.
           intros [H|(colIdx & Hlt & Hc1 & Hyy & Hxx)]; apply Hn;
             [left; exact H|].
           right. exists colIdx. repeat split; auto.
    + exists acc1. split; [exact Hrun1|].
      destruct HQ as (Hacc1 & Hset1 & Hkeep1).
      split; [exact Hacc1|]. split.
      * intros yy xx (ri & ci & row' & Hlt & Hr & Hc & Hyy & Hxx).
        apply Hset1.
        destruct (Nat.eq_dec ri rowIdx) as [->|Hri].
        -- right. rewrite Hrow in Hr. inversion Hr. subst row'.
           exists ci. repeat split; auto.
           eapply lookup_lt_Some. exact Hc.
        -- left. exists ri, ci, row'. repeat split; auto. lia.
      * intros yy xx Hn. apply Hkeep1.
        intros [(ri & ci & row' & Hlt & Hr & Hc & Hyy & Hxx)
               |(ci & Hlt & Hc & Hyy & Hxx)]; apply Hn.
        -- exists ri, ci, row'. repeat split; auto.
        -- exists rowIdx, ci, row. repeat split; auto.
  - rewrite Hrun. cbn [bind].
    destruct HP as (Hboard' & Hset & Hkeep).
    eexists. eexists. split; [reflexivity|].
    split; [exact Hboard'|]. split; [|split].
    + intros yy xx (ri & ci & row & Hr & Hc & Hyy & Hxx). apply Hset.
      exists ri, ci, row. repeat split; auto.
      eapply lookup_lt_Some. exact Hr.
    + intros yy xx Hn. apply Hkeep.
      intros (ri & ci & row & Hlt & Hr & Hc & Hyy & Hxx). apply Hn.
      exists ri, ci, row. repeat split; auto.
    + reflexivity.
Qed.

(** ** Moving the current block *)

Lemma every_from_ext {A : Type} (f g : A -> Z -> result bool) arr i :
  (forall a j, f a j = g a j) -> every_from f arr i = every_from g arr i.
Proof.
  intros Hfg. revert i. induction arr as [|a rest IH]; intros i; simpl.
  - reflexivity.
  - rewrite Hfg. destruct (g a i) as [[|]| |]; cbn [bind]; auto.
Qed.

(** Validating an offset from a moved block is validating the sum of the
    offsets from the block. *)
Lemma validCells_moved board b dx dy dx' dy' :
  validCells board
    {| shape := shape b; x := x b + dx; y := y b + dy |} dx' dy'
  = validCells board b (dx + dx') (dy + dy').
Proof.
  unfold validCells, every. cbn [shape x y].
  apply every_from_ext. intros row rowIndex.
  apply every_from_ext. intros cell colIndex.
  destruct (cell =? 1); [|reflexivity]. cbv zeta.
  replace (x b + dx + colIndex + dx') with (x b + colIndex + (dx + dx'))
    by lia.
  replace (y b + dy + rowIndex + dy') with (y b + rowIndex + (dy + dy'))
    by lia.
  reflexivity.
Qed.

Lemma move_and_back (random : nat -> Z) (w : World) (dx : Z)
    (there back : Code) :
  (forall w0, reducer random w0 (KeyboardEvent there)
              = (let* valid := isValidMove (heap w0) (state w0) dx 0 in
                 if valid then moveCurrent w0 dx 0 else Ok w0)) ->
  (forall w0, reducer random w0 (KeyboardEvent back)
              = (let* valid := isValidMove (heap w0) (state w0) (- dx) 0 in
                 if valid then moveCurrent w0 (- dx) 0 else Ok w0)) ->
  isValidMove (heap w) (state w) 0 0 = Ok true ->
  isValidMove (heap w) (state w) dx 0 = Ok true ->
  exists w1,
    reducer random w (KeyboardEvent there) = Ok w1
    /\ reducer random w1 (KeyboardEvent back) = Ok w.
Proof.
  intros Hthere Hback Hhere Hvalid.
  rewrite Hthere, Hvalid. cbn [bind].
  unfold isValidMove, deref in Hhere.
  unfold moveCurrent, deref.
  destruct (heap w !! currentBlock (state w)) as [cur|] eqn:Hcur;
    [|discriminate Hhere].
  cbn [bind] in *. eexists. split; [reflexivity|].
  assert (Hlt : (currentBlock (state w) < length (heap w))%nat)
    by (eapply lookup_lt_Some; exact Hcur).
  rewrite Hback. unfold isValidMove, moveCurrent, deref. cbn [heap state].
  rewrite list_lookup_insert_eq by exact Hlt. cbn [bind].
  rewrite validCells_moved.
  replace (dx + - dx) with 0 by lia. change (0 + 0) with 0.
  rewrite Hhere. cbn [bind shape x y draws].
  rewrite list_insert_insert_eq.
  replace (x cur + dx + - dx) with (x cur) by lia.
  replace (y cur + 0 + 0) with (y cur) by lia.
  destruct w as [h st d]. cbn [heap state draws] in *.
  f_equal. f_equal. apply list_insert_id.
  rewrite Hcur. destruct cur. reflexivity.
Qed.

(** X8. When the current block does not overlap the board, a move to the
    left that is accepted is undone by the key D, and a move to the right
    that is accepted is undone by the key A: the world is exactly the one
    before the two keys. *)
Theorem horizontal_moves_undo_each_other (random : nat -> Z) (w : World) :
  isValidMove (heap w) (state w) 0 0 = Ok true ->
  (isValidMove (heap w) (state w) (-1) 0 = Ok true ->
   exists w1,
     reducer random w (KeyboardEvent KeyA) = Ok w1
     /\ reducer random w1 (KeyboardEvent KeyD) = Ok w)
  /\ (isValidMove (heap w) (state w) 1 0 = Ok true ->
      exists w1,
        reducer random w (KeyboardEvent KeyD) = Ok w1
        /\ reducer random w1 (KeyboardEvent KeyA) = Ok w).
Proof.
  intros Hhere. split; intros Hvalid.
  - apply (move_and_back random w (-1) KeyA KeyD); auto.
  - apply (move_and_back random w 1 KeyD KeyA); auto.
Qed.

(** X9. When the current block can fall, the key S and a tick put it in the
    same place, one row lower, and leave the state record's other fields
    alone; the key moves the block object itself, whereas the tick leaves
    that object as it is and makes the state refer to a new copy. *)
Theorem soft_drop_and_falling_tick (random : nat -> Z) (w : World) :
  gameEnd (state w) = false ->
  isValidMove (heap w) (state w) 0 1 = Ok true ->
  exists cur w1 w2,
    activeBlock w = Some cur
    /\ reducer random w (KeyboardEvent KeyS) = Ok w1
    /\ reducer random w Tick = Ok w2
    /\ activeBlock w1 = Some (set_y (y cur + 1) cur)
    /\ activeBlock w2 = Some (set_y (y cur + 1) cur)
    /\ state w1 = state w
    /\ state w2 = set_currentBlock (length (heap w)) (state w)
    /\ heap w1 !! currentBlock (state w) = Some (set_y (y cur + 1) cur)
    /\ heap w2 !! currentBlock (state w) = Some cur
    /\ draws w1 = draws w
    /\ draws w2 = draws w.
Proof.
  intros Hend Hvalid.
  pose proof Hvalid as Hv. unfold isValidMove, deref in Hv.
  destruct (heap w !! currentBlock (state w)) as [cur|] eqn:Hcur;
    [|discriminate Hv].
  assert (Hlt : (currentBlock (state w) < length (heap w))%nat)
    by (eapply lookup_lt_Some; exact Hcur).
  exists cur. eexists. eexists.
  split; [exact Hcur|].
  split.
  { cbn [reducer]. rewrite Hvalid. cbn [bind].
    unfold moveCurrent, deref. rewrite Hcur. cbn [bind]. reflexivity. }
  split.
  { cbn [reducer]. rewrite Hend. unfold deref. rewrite Hcur. cbn [bind].
    rewrite Hvalid. cbn [bind negb alloc fst snd]. reflexivity. }
  unfold activeBlock, set_y. cbn [state heap draws currentBlock
                                  set_currentBlock].
  rewrite Z.add_0_r.
  rewrite list_lookup_insert_eq by exact Hlt.
  rewrite lookup_app_r by lia. rewrite Nat.sub_diag.
  rewrite lookup_app_l by exact Hlt.
  repeat split; try reflexivity. exact Hcur.
Qed.

(** ** The clearing loop *)

Lemma clearLoop_head rows yy s :
  List.filter isFullRow rows <> [] ->
  gameBoard (clearLoop rows yy s) !! 0%nat = Some emptyRow.
Proof.
  revert yy s. induction rows as [|row rest IH]; intros yy s Hsome.
  - contradiction.
  - cbn [clearLoop]. cbn [List.filter] in Hsome.
    destruct (List.filter isFullRow rest) as [|r rs] eqn:Hrest.
    + destruct (isFullRow row); [|contradiction].
      rewrite clearLoop_no_full_row by exact Hrest. reflexivity.
    + apply IH. discriminate.
Qed.

(** X10. On a board of GRID_HEIGHT rows with exactly one full row, the
    clearing loop does what the specification's step does: the full row is
    removed, one empty row is put on top, the other rows keep their order.
    With no full row both leave the board unchanged. *)
Theorem clearing_at_most_one_full_row (s : State) :
  length (gameBoard s) = Z.to_nat Constants.GRID_HEIGHT ->
  (List.filter isFullRow (gameBoard s) = [] ->
   clearFullRows s = s
   /\ Spec.resolveClears (gameBoard s) = (gameBoard s, 0%nat))
  /\ (forall top row bottom,
        gameBoard s = top ++ row :: bottom ->
        isFullRow row = true ->
        List.filter isFullRow top = [] ->
        List.filter isFullRow bottom = [] ->
        gameBoard (clearFullRows s) = emptyRow :: top ++ bottom
        /\ Spec.resolveClears (gameBoard s)
           = (emptyRow :: top ++ bottom, 1%nat)).
Proof.
  intros Hlen. split.
  - apply clearFullRows_no_full_row.
  - intros top row bottom Hboard Hfull Htop Hbottom.
    eapply clearFullRows_one_full_row; eassumption.
Qed.

(** X11. Whatever the number of full rows, the clearing loop keeps the
    dimensions of a board of GRID_HEIGHT by GRID_WIDTH cells, and when at
    least one row was full the top row of the resulting board is an empty
    row. *)
Theorem clearing_keeps_dimensions (s : State) :
  boardOk (gameBoard s) ->
  boardOk (gameBoard (clearFullRows s))
  /\ (1 <= fullRowCount (gameBoard s) ->
      gameBoard (clearFullRows s) !! 0%nat = Some emptyRow).
Proof.
  intros Hboard. split.
  - unfold clearFullRows. apply clearLoop_ok; [lia| |exact Hboard].
    rewrite length_rev. destruct Hboard as [-> _]. reflexivity.
  - intros Hk. unfold clearFullRows. apply clearLoop_head.
    rewrite List.filter_rev. unfold fullRowCount in Hk.
    destruct (List.filter isFullRow (gameBoard s)); [simpl in Hk; lia|].
    simpl. intros H. apply app_eq_nil in H as [_ H]. discriminate H.
Qed.

(** ** The block factory covers its range *)

(** X12. Every shape of the catalogue at every column from 0 to GRID_WIDTH
    minus the width of its first row is a block the factory can return:
    there are two values of the unit interval on which [createRandomBlock]
    returns exactly that block in row 0. *)
Theorem createRandomBlock_reaches_every_spawn (sh : list (list Z))
    (row0 : list Z) (col : Z) :
  In sh blockTypes ->
  sh !! 0%nat = Some row0 ->
  0 <= col <= Constants.GRID_WIDTH - Z.of_nat (length row0) ->
  exists r1 r2,
    Double.unit_interval r1
    /\ Double.unit_interval r2
    /\ createRandomBlock r1 r2 = Ok {| shape := sh; x := col; y := 0 |}.
Proof.
  intros Hin Hrow0 Hcol.
  set (n := Constants.GRID_WIDTH - Z.of_nat (length row0) + 1).
  assert (Hr2 : exists r2, r2 = Double.dyadic ((16 * col + n - 1) / n) 4)
    by eauto.
  destruct Hr2 as (r2 & Hr2).
  simpl in Hin.
  repeat (destruct Hin as [<-|Hin]); try contradiction;
    simpl in Hrow0; inversion Hrow0; subst row0; clear Hrow0;
    unfold Constants.GRID_WIDTH in *; cbn [length] in *;
    [exists (Double.dyadic 0 3) | exists (Double.dyadic 2 3)
    |exists (Double.dyadic 3 3) | exists (Double.dyadic 4 3)
    |exists (Double.dyadic 5 3) | exists (Double.dyadic 6 3)
    |exists (Double.dyadic 7 3)];
    exists r2; subst r2 n;
    assert (Hcases : col = 0 \/ col = 1 \/ col = 2 \/ col = 3 \/ col = 4
                     \/ col = 5 \/ col = 6 \/ col = 7 \/ col = 8) by lia;
    repeat (destruct Hcases as [->|Hcases]); try subst col; try lia;
    (split; [split; apply Z.leb_le; vm_compute; reflexivity|]);
    (split; [split; apply Z.leb_le; vm_compute; reflexivity|]);
    vm_compute; reflexivity.
Qed.

(** ** The validator on a board that is too short *)

(** A row either has a cell equal to 1 or has none. *)
Lemma row_has_one_or_none (row : list Z) :
  (exists colIndex : nat, row !! colIndex = Some 1)
  \/ (forall colIndex : nat, row !! colIndex <> Some 1).
Proof.
  induction row as [|cell rest IH].
  - right. intros colIndex H. destruct colIndex; discriminate H.
  - destruct (Z.eq_dec cell 1) as [->|Hne].
    + left. exists 0%nat. reflexivity.
    + destruct IH as [(colIndex & H)|Hnone].
      * left. exists (S colIndex). exact H.
      * right. intros [|colIndex] H; simpl in H.
        -- inversion H. contradiction.
        -- eapply Hnone. exact H.
Qed.

Lemma every_from_throws {A : Type} (f : A -> Z -> result bool) arr i :
  (forall (k : nat) a, arr !! k = Some a ->
     f a (i + Z.of_nat k) = Ok true \/ f a (i + Z.of_nat k) = TypeError) ->
  (exists (k : nat) a, arr !! k = Some a
                       /\ f a (i + Z.of_nat k) = TypeError) ->
  every_from f arr i = TypeError.
Proof.
  revert i. induction arr as [|a rest IH]; intros i Hall (k & a' & Hk & Hthrow).
  - destruct k; discriminate Hk.
  - simpl. destruct (Hall 0%nat a eq_refl) as [Hok|Herr];
      rewrite Z.add_0_r in *.
    + rewrite Hok. cbn [bind]. apply IH.
      * intros j a0 Hj.
        replace (i + 1 + Z.of_nat j) with (i + Z.of_nat (S j)) by lia.
        apply Hall. exact Hj.
      * destruct k as [|k]; simpl in Hk.
        -- inversion Hk. subst a'. rewrite Z.add_0_r in Hthrow. congruence.
        -- exists k, a'. split; [exact Hk|].
           replace (i + 1 + Z.of_nat k) with (i + Z.of_nat (S k)) by lia.
           exact Hthrow.
    + rewrite Herr. reflexivity.
Qed.

(** X13. [isValidMove] checks rows against the constant GRID_HEIGHT, not
    against the board it reads: when every cell of the block that equals 1
    lands inside the nominal grid but on a row the board does not have, and
    there is such a cell, the call throws a [TypeError]. *)
Theorem isValidMove_throws_on_missing_rows (h : list Block) (s : State)
    (b : Block) (deltaX deltaY : Z) :
  h !! currentBlock s = Some b ->
  (forall (rowIndex colIndex : nat) row,
     shape b !! rowIndex = Some row ->
     row !! colIndex = Some 1 ->
     0 <= x b + Z.of_nat colIndex + deltaX < Constants.GRID_WIDTH
     /\ 0 <= y b + Z.of_nat rowIndex + deltaY < Constants.GRID_HEIGHT
     /\ Z.of_nat (length (gameBoard s))
        <= y b + Z.of_nat rowIndex + deltaY) ->
  (exists (rowIndex colIndex : nat) row,
     shape b !! rowIndex = Some row /\ row !! colIndex = Some 1) ->
  isValidMove h s deltaX deltaY = TypeError.
Proof.
  intros Hb Hcells Hsome. unfold isValidMove, deref. rewrite Hb.
  cbn [bind]. unfold validCells, every.
  assert (Hcell : forall (rowIndex colIndex : nat) row,
             shape b !! rowIndex = Some row ->
             row !! colIndex = Some 1 ->
             (if (x b + (0 + Z.of_nat colIndex) + deltaX >=? 0)
                 && (x b + (0 + Z.of_nat colIndex) + deltaX
                     <? Constants.GRID_WIDTH)
                 && (y b + (0 + Z.of_nat rowIndex) + deltaY
                     <? Constants.GRID_HEIGHT)
              then if y b + (0 + Z.of_nat rowIndex) + deltaY <? 0
                   then Ok true
                   else cellIsZero (gameBoard s)
                          (y b + (0 + Z.of_nat rowIndex) + deltaY)
                          (x b + (0 + Z.of_nat colIndex) + deltaX)
              else Ok false) = TypeError).
  { intros rowIndex colIndex row Hrow Hone.
    destruct (Hcells rowIndex colIndex row Hrow Hone) as (Hx & Hy & Hlen).
    rewrite !Z.add_0_l.
    replace (_ >=? 0) with true by (symmetry; apply Z.geb_le; lia).
    replace (_ <? Constants.GRID_WIDTH) with true
      by (symmetry; apply Z.ltb_lt; lia).
    replace (_ <? Constants.GRID_HEIGHT) with true
      by (symmetry; apply Z.ltb_lt; lia).
    cbn [andb].
    replace (_ <? 0) with false by (symmetry; apply Z.ltb_ge; lia).
    unfold cellIsZero, index.
    replace (_ <? 0) with false by (symmetry; apply Z.ltb_ge; lia).
    rewrite (proj2 (lookup_ge_None _ _)) by lia. reflexivity. }
  apply every_from_throws.
  - intros rowIndex row Hrow.
    destruct (row_has_one_or_none row) as [(colIndex & Hone)|Hnone].
    + right. apply every_from_throws.
      * intros colIndex' cell Hc. destruct (cell =? 1) eqn:Hcmp; [|auto].
        apply Z.eqb_eq in Hcmp. subst cell. right.
        eapply Hcell; eassumption.
      * exists colIndex, 1. split; [exact Hone|].
        change (1 =? 1) with true. cbn iota.
        eapply Hcell; eassumption.
    + left. apply every_from_true. intros colIndex cell Hc.
      destruct (cell =? 1) eqn:Hcmp; [|reflexivity].
      apply Z.eqb_eq in Hcmp. subst cell. exfalso. eapply Hnone. exact Hc.
  - destruct Hsome as (rowIndex & colIndex & row & Hrow & Hone).
    exists rowIndex, row. split; [exact Hrow|].
    apply every_from_throws.
    + intros colIndex' cell Hc. destruct (cell =? 1) eqn:Hcmp; [|auto].
      apply Z.eqb_eq in Hcmp. subst cell. right.
      eapply Hcell; eassumption.
    + exists colIndex, 1. split; [exact Hone|].
      change (1 =? 1) with true. cbn iota.
      eapply Hcell; eassumption.
Qed.

(** ** The unused function [tick] *)

(** X14. When the game has ended or the current block can fall, the
    function [tick] returns what the reducer returns on a tick. *)
Theorem tick_agrees_with_reducer_unless_landing (random : nat -> Z)
    (w : World) :
  gameEnd (state w) = true
  \/ isValidMove (heap w) (state w) 0 1 = Ok true ->
  tick random w = reducer random w Tick.
Proof.
  intros [Hend|Hvalid]; unfold tick; cbn [reducer].
  - rewrite Hend. reflexivity.
  - destruct (gameEnd (state w)); [reflexivity|].
    destruct (deref (heap w) (currentBlock (state w))); try reflexivity.
    cbn [bind]. rewrite Hvalid. reflexivity.
Qed.

(** X15. When the current block lands, [tick] differs from the reducer: it
    stacks the block and reports game over in [gameEnd], but it changes
    neither score, level, high score nor [canRestart], clears no row, and
    replaces both the current and the next block by blocks newly drawn
    from the factory, using four random values. *)
Theorem tick_landing_draws_two_blocks (random : nat -> Z) (w : World)
    (board : list (list Z)) (over : bool) :
  gameEnd (state w) = false ->
  isValidMove (heap w) (state w) 0 1 = Ok false ->
  lockedBoard (heap w) (state w) = Ok board ->
  isGameOver board = Ok over ->
  (forall i, Double.unit_interval (random i)) ->
  exists w' newBlock newNextBlock,
    tick random w = Ok w'
    /\ createRandomBlock (random (draws w)) (random (S (draws w)))
       = Ok newBlock
    /\ createRandomBlock (random (S (S (draws w))))
         (random (S (S (S (draws w))))) = Ok newNextBlock
    /\ activeBlock w' = Some newBlock
    /\ heap w' !! nextBlock (state w') = Some newNextBlock
    /\ nextBlockShape (state w') = shape newNextBlock
    /\ gameBoard (state w') = board
    /\ gameEnd (state w') = over
    /\ score (state w') = score (state w)
    /\ level (state w') = level (state w)
    /\ highScore (state w') = highScore (state w)
    /\ canRestart (state w') = canRestart (state w)
    /\ draws w' = S (S (S (S (draws w)))).
Proof.
  intros Hend Hvalid Hlock Hover Hrandom.
  destruct (lockedBoard_inv _ _ _ Hlock) as (cur & stacked & Hcur & Hst & <-).
  destruct (createRandomBlock_spawn _ _ (Hrandom (draws w))
              (Hrandom (S (draws w)))) as (nb1 & _ & Hnb1 & _).
  destruct (createRandomBlock_spawn _ _ (Hrandom (S (S (draws w))))
              (Hrandom (S (S (S (draws w)))))) as (nb2 & _ & Hnb2 & _).
  eexists. exists nb1, nb2.
  split.
  { unfold tick, deref. rewrite Hend, Hcur. cbn [bind].
    rewrite Hvalid. cbn [bind negb]. rewrite Hst. cbn [bind].
    cbn [gameBoard set_gameBoard]. rewrite Hover. cbn [bind].
    rewrite Hnb1, Hnb2. cbn [bind alloc fst snd]. reflexivity. }
  split; [exact Hnb1|]. split; [exact Hnb2|].
  unfold activeBlock.
  cbn [state heap draws gameEnd gameBoard currentBlock nextBlock
       nextBlockShape score canRestart highScore level set_gameEnd
       set_nextBlockShape set_nextBlock set_currentBlock set_gameBoard].
  rewrite length_app. cbn [length].
  split.
  { rewrite lookup_app_l by (rewrite length_app; cbn [length]; lia).
    rewrite lookup_app_r by lia. rewrite Nat.sub_diag. reflexivity. }
  split.
  { rewrite lookup_app_r by (rewrite length_app; cbn [length]; lia).
    rewrite length_app. cbn [length].
    replace (length (heap w) + 1 - (length (heap w) + 1))%nat with 0%nat
      by lia.
    reflexivity. }
  repeat split.
Qed.

(** ** Drawing *)

Lemma onesOfRow_spec cells xx yy col row :
  In (col, row) (onesOfRow cells xx yy) <->
  exists colIdx : nat,
    cells !! colIdx = Some 1 /\ col = xx + Z.of_nat colIdx /\ row = yy.
Proof.
  revert xx. induction cells as [|cell rest IH]; intros xx; simpl.
  - split; [contradiction|]. intros (colIdx & H & _).
    destruct colIdx; discriminate H.
  - rewrite in_app_iff, IH. split.
    + intros [H|(colIdx & Hc & Hcol & Hrow)].
      * destruct (cell =? 1) eqn:Hcmp; [|contradiction].
        apply Z.eqb_eq in Hcmp.
        destruct H as [Heq|Hfalse]; [|contradiction]. inversion Heq.
        exists 0%nat. split; [simpl; congruence|]. split; lia.
      * exists (S colIdx). split; [exact Hc|]. split; lia.
    + intros ([|colIdx] & Hc & Hcol & Hrow); simpl in Hc.
      * inversion Hc. left. change (1 =? 1) with true. left.
        f_equal; lia.
      * right. exists colIdx. split; [exact Hc|]. split; lia.
Qed.

Lemma onesOfRows_spec rows xx yy col row :
  In (col, row) (onesOfRows rows xx yy) <->
  exists (rowIdx colIdx : nat) cells,
    rows !! rowIdx = Some cells
    /\ cells !! colIdx = Some 1
    /\ col = xx + Z.of_nat colIdx
    /\ row = yy + Z.of_nat rowIdx.
Proof.
  revert yy. induction rows as [|cells rest IH]; intros yy; simpl.
  - split; [contradiction|]. intros (rowIdx & colIdx & cells & H & _).
    destruct rowIdx; discriminate H.
  - rewrite in_app_iff, onesOfRow_spec, IH. split.
    + intros [(colIdx & Hc & Hcol & Hrow)
             |(rowIdx & colIdx & cells' & Hr & Hc & Hcol & Hrow)].
      * exists 0%nat, colIdx, cells.
        split; [reflexivity|]. split; [exact Hc|]. split; lia.
      * exists (S rowIdx), colIdx, cells'.
        split; [exact Hr|]. split; [exact Hc|]. split; lia.
    + intros ([|rowIdx] & colIdx & cells' & Hr & Hc & Hcol & Hrow);
        simpl in Hr.
      * inversion Hr. subst cells'. left. exists colIdx.
        split; [exact Hc|]. split; lia.
      * right. exists rowIdx, colIdx, cells'.
        split; [exact Hr|]. split; [exact Hc|]. split; lia.
Qed.

Lemma drawRow_closed (bx by' yy : Z) row i svg :
  forEach_from
    (fun svg cell xx =>
       if cell =? 1 then Ok (svg ++ [cellRect (xx + bx) (yy + by')])
       else Ok svg) row i svg
  = Ok (svg ++ map (fun p => cellRect (fst p + bx) (snd p + by'))
                 (onesOfRow row i yy)).
Proof.
  revert i svg. induction row as [|cell rest IH]; intros i svg; simpl.
  - rewrite app_nil_r. reflexivity.
  - destruct (cell =? 1); cbn [bind]; rewrite IH; [|reflexivity].
    rewrite <- app_assoc. reflexivity.
Qed.

Lemma drawRows_closed (bx by' : Z) rows j svg :
  forEach_from
    (fun svg row yy =>
       forEach_from
         (fun svg cell xx =>
            if cell =? 1 then Ok (svg ++ [cellRect (xx + bx) (yy + by')])
            else Ok svg) row 0 svg) rows j svg
  = Ok (svg ++ map (fun p => cellRect (fst p + bx) (snd p + by'))
                 (onesOfRows rows 0 j)).
Proof.
  revert j svg. induction rows as [|row rest IH]; intros j svg; simpl.
  - rewrite app_nil_r. reflexivity.
  - rewrite drawRow_closed. cbn [bind]. rewrite IH.
    rewrite <- app_assoc, map_app. reflexivity.
Qed.

Lemma cell_in_canvas col row :
  0 <= col < Constants.GRID_WIDTH ->
  0 <= row < Constants.GRID_HEIGHT ->
  0 <= col * Block.WIDTH <= Viewport.CANVAS_WIDTH - Block.WIDTH
  /\ 0 <= row * Block.HEIGHT <= Viewport.CANVAS_HEIGHT - Block.HEIGHT.
Proof.
  change Block.WIDTH with 20. change Block.HEIGHT with 20.
  unfold Constants.GRID_WIDTH, Constants.GRID_HEIGHT,
    Viewport.CANVAS_WIDTH, Viewport.CANVAS_HEIGHT.
  lia.
Qed.

(** X16. [renderCurrentBlock] never throws: it appends to the canvas one
    green rectangle of Block.WIDTH by Block.HEIGHT per cell of the current
    block's shape that equals 1, in row-major order, at the pixel position
    of the grid cell it covers.  For a block that lies inside the grid, as
    in every reachable world, all these rectangles lie inside the
    canvas. *)
Theorem renderCurrentBlock_draws_the_block (h : list Block) (s : State)
    (svg : list Element) (cur : Block) :
  h !! currentBlock s = Some cur ->
  renderCurrentBlock h s svg
  = Ok (svg ++ map (fun p => cellRect (fst p + x cur) (snd p + y cur))
                 (onesOfRows (shape cur) 0 0))
  /\ (blockOk cur ->
      forall col row,
        In (col, row) (onesOfRows (shape cur) 0 0) ->
        0 <= (col + x cur) * Block.WIDTH
          <= Viewport.CANVAS_WIDTH - Block.WIDTH
        /\ 0 <= (row + y cur) * Block.HEIGHT
             <= Viewport.CANVAS_HEIGHT - Block.HEIGHT).
Proof.
  intros Hcur. split.
  - unfold renderCurrentBlock, deref, forEach. rewrite Hcur. cbn [bind].
    apply drawRows_closed.
  - intros [Hy Hcells] col row Hin.
    apply onesOfRows_spec in Hin
      as (rowIdx & colIdx & cells & Hr & Hc & -> & ->).
    destruct (Hcells rowIdx colIdx cells Hr Hc) as [Hx Hy'].
    apply cell_in_canvas; lia.
Qed.

Lemma boardRow_closed board (yy : nat) row n (i : nat) svg :
  board !! yy = Some row ->
  forEach_from
    (fun svg (_ : unit) xx =>
       match index board (Z.of_nat yy) with
       | None => TypeError
       | Some row =>
           match index row xx with
           | Some cell =>
               if cell =? 1
               then Ok (svg ++ [cellRect xx (Z.of_nat yy)])
               else Ok svg
           | None => Ok svg
           end
       end) (repeat tt n) (Z.of_nat i) svg
  = Ok (svg ++ map (fun p => cellRect (fst p) (snd p))
                 (onesOfRow (take n (drop i row)) (Z.of_nat i)
                    (Z.of_nat yy))).
Proof.
  intros Hrow. revert i svg. induction n as [|n IH]; intros i svg.
  - cbn. rewrite app_nil_r. reflexivity.
  - cbn [repeat forEach_from]. unfold index at 1 2.
    replace (Z.of_nat yy <? 0) with false by (symmetry; apply Z.ltb_ge; lia).
    replace (Z.of_nat i <? 0) with false by (symmetry; apply Z.ltb_ge; lia).
    rewrite !Nat2Z.id, Hrow.
    replace (Z.of_nat i + 1) with (Z.of_nat (S i)) by lia.
    destruct (row !! i) as [cell|] eqn:Hcell.
    + rewrite (drop_S _ _ _ Hcell). cbn [take onesOfRow].
      replace (Z.of_nat i + 1) with (Z.of_nat (S i)) by lia.
      destruct (cell =? 1); cbn [bind]; rewrite IH; [|reflexivity].
      rewrite <- app_assoc. reflexivity.
    + cbn [bind]. rewrite IH.
      apply lookup_ge_None in Hcell.
      rewrite !drop_ge by lia. rewrite take_nil. reflexivity.
Qed.

Lemma boardRows_closed board n (i : nat) svg :
  forEach_from
    (fun svg (_ : unit) yy =>
       forEach_from
         (fun svg (_ : unit) xx =>
            match index board yy with
            | None => TypeError
            | Some row =>
                match index row xx with
                | Some cell =>
                    if cell =? 1 then Ok (svg ++ [cellRect xx yy])
                    else Ok svg
                | None => Ok svg
                end
            end) (arrayLike Constants.GRID_WIDTH) 0 svg)
    (repeat tt n) (Z.of_nat i) svg
  = if (n <=? length (drop i board))%nat
    then Ok (svg ++ map (fun p => cellRect (fst p) (snd p))
                      (onesOfRows
                         (map (take (Z.to_nat Constants.GRID_WIDTH))
                            (take n (drop i board)))
                         0 (Z.of_nat i)))
    else TypeError.
Proof.
  revert i svg. induction n as [|n IH]; intros i svg.
  - cbn. rewrite app_nil_r. reflexivity.
  - cbn [repeat forEach_from].
    replace (Z.of_nat i + 1) with (Z.of_nat (S i)) by lia.
    destruct (board !! i) as [row|] eqn:Hrow.
    + unfold arrayLike.
      rewrite (boardRow_closed board i row _ 0%nat svg Hrow).
      cbn [bind]. rewrite IH. rewrite (drop_S _ _ _ Hrow).
      cbn [length take map onesOfRows]. rewrite drop_0.
      change (S n <=? S (length (drop (S i) board)))%nat
        with (n <=? length (drop (S i) board))%nat.
      destruct (n <=? length (drop (S i) board))%nat; [|reflexivity].
      rewrite <- app_assoc, map_app.
      replace (Z.of_nat i + 1) with (Z.of_nat (S i)) by lia.
      reflexivity.
    + apply lookup_ge_None in Hrow as Hge.
      rewrite drop_ge by lia. cbn [length Nat.leb].
      unfold arrayLike. cbn [Z.to_nat Constants.GRID_WIDTH].
      change (Z.to_nat Constants.GRID_WIDTH) with 10%nat.
      cbn [repeat forEach_from]. unfold index at 1.
      replace (Z.of_nat i <? 0) with false
        by (symmetry; apply Z.ltb_ge; lia).
      rewrite Nat2Z.id, Hrow. reflexivity.
Qed.

(** X17. [renderGameBoard] reads GRID_HEIGHT rows of GRID_WIDTH cells: on a
    board with fewer rows it throws a [TypeError]; otherwise it appends to
    the canvas one green rectangle per cell equal to 1 among the first
    GRID_WIDTH cells of the first GRID_HEIGHT rows, in row-major order, at
    the cell's pixel position, and every such rectangle lies inside the
    canvas. *)
Theorem renderGameBoard_draws_the_board (s : State) (svg : list Element) :
  let drawn :=
    onesOfRows
      (map (take (Z.to_nat Constants.GRID_WIDTH))
         (take (Z.to_nat Constants.GRID_HEIGHT) (gameBoard s))) 0 0 in
  renderGameBoard s svg
  = (if (Z.to_nat Constants.GRID_HEIGHT <=? length (gameBoard s))%nat
     then Ok (svg ++ map (fun p => cellRect (fst p) (snd p)) drawn)
     else TypeError)
  /\ (forall col row,
        In (col, row) drawn ->
        cellAt (gameBoard s) row col = Some 1
        /\ 0 <= col * Block.WIDTH <= Viewport.CANVAS_WIDTH - Block.WIDTH
        /\ 0 <= row * Block.HEIGHT
             <= Viewport.CANVAS_HEIGHT - Block.HEIGHT)
  /\ (boardOk (gameBoard s) ->
      renderGameBoard s svg
      = Ok (svg ++ map (fun p => cellRect (fst p) (snd p))
                     (onesOfRows (gameBoard s) 0 0))).
Proof.
  intros drawn.
  assert (Hrun : renderGameBoard s svg
                 = (if (Z.to_nat Constants.GRID_HEIGHT
                        <=? length (gameBoard s))%nat
                    then Ok (svg ++ map (fun p => cellRect (fst p) (snd p))
                                      drawn)
                    else TypeError)).
  { unfold renderGameBoard, forEach, arrayLike at 2.
    rewrite (boardRows_closed (gameBoard s) _ 0%nat svg).
    rewrite drop_0. reflexivity. }
  split; [exact Hrun|]. split.
  - intros col row Hin. subst drawn.
    apply onesOfRows_spec in Hin
      as (rowIdx & colIdx & cells & Hr & Hc & -> & ->).
    rewrite list_lookup_fmap in Hr.
    destruct (take (Z.to_nat Constants.GRID_HEIGHT) (gameBoard s) !! rowIdx)
      as [full|] eqn:Hfull; [|discriminate Hr].
    cbn in Hr. inversion Hr. subst cells.
    apply lookup_take_Some in Hfull as [Hfull Hri].
    apply lookup_take_Some in Hc as [Hc Hci].
    rewrite !Z.add_0_l. split.
    + unfold cellAt, index.
      replace (Z.of_nat rowIdx <? 0) with false
        by (symmetry; apply Z.ltb_ge; lia).
      replace (Z.of_nat colIdx <? 0) with false
        by (symmetry; apply Z.ltb_ge; lia).
      rewrite !Nat2Z.id, Hfull. exact Hc.
    + apply cell_in_canvas; unfold Constants.GRID_WIDTH,
        Constants.GRID_HEIGHT in *; lia.
  - intros [Hlen Hrows]. rewrite Hrun. subst drawn.
    rewrite Hlen, Nat.leb_refl.
    rewrite <- Hlen, firstn_all.
    replace (map (take (Z.to_nat Constants.GRID_WIDTH)) (gameBoard s))
      with (gameBoard s); [reflexivity|].
    clear -Hrows. induction Hrows as [|row rest Hrow _ IH]; [reflexivity|].
    cbn [map]. rewrite <- IH. rewrite <- Hrow, firstn_all. reflexivity.
Qed.

(** ** Instances of the further properties on the concrete games *)

Lemma squaresOver_reachable : reachable squares squaresOver.
Proof.
  apply (play_reachable squares (squaresPiled ++ [Tick])).
  exact squaresOver_play.
Qed.

Lemma squaresTopped_reachable : reachable squares squaresTopped.
Proof.
  apply (play_reachable squares squaresPiled). exact squaresTopped_play.
Qed.

Lemma squaresStart_ok : worldOk squaresStart.
Proof.
  apply (reachable_ok squares squares_unit).
  apply reach_main. exact squaresStart_main.
Qed.

Lemma square_blockOk (col row : Z) :
  0 <= col <= 8 -> 0 <= row <= 18 ->
  blockOk {| shape := [[1; 1]; [1; 1]]; x := col; y := row |}.
Proof.
  intros Hcol Hrow. split; cbn [shape x y]; [lia|].
  intros rowIndex colIndex cells Hr Hc.
  unfold Constants.GRID_WIDTH, Constants.GRID_HEIGHT.
  destruct rowIndex as [|[|rowIndex]]; simpl in Hr; try discriminate Hr;
    inversion Hr; subst cells;
    destruct colIndex as [|[|colIndex]]; simpl in Hc; try discriminate Hc;
    lia.
Qed.

Lemma oneFullRow_ok : boardOk (repeat emptyRow 19 ++ [repeat 1 10]).
Proof. split; [reflexivity|]. repeat constructor. Qed.

Lemma reachable_worlds_are_well_formed_witness :
  worldOk squaresOver
  /\ exists cur next,
       heap squaresOver !! currentBlock (state squaresOver) = Some cur
       /\ heap squaresOver !! nextBlock (state squaresOver) = Some next
       /\ blockOk cur
       /\ blockOk next.
Proof.
  apply (reachable_worlds_are_well_formed squares squaresOver).
  - exact squares_unit.
  - exact squaresOver_reachable.
Defined.

Lemma reducer_steps_from_well_formed_witness :
  exists w', reducer squares squaresStart Tick = Ok w' /\ worldOk w'.
Proof.
  apply (reducer_steps_from_well_formed squares squaresStart Tick).
  - exact squares_unit.
  - exact squaresStart_ok.
Defined.

Lemma movement_keys_witness :
  exists w',
    reducer squares squaresStart (KeyboardEvent KeyD) = Ok w'
    /\ state w' = state squaresStart
    /\ draws w' = draws squaresStart.
Proof.
  eexists. split; [vm_compute; reflexivity|].
  destruct (movement_keys_only_move_current_block squares squaresStart
              _ KeyD ltac:(discriminate) eq_refl) as (Hs & Hd & _).
  exact (conj Hs Hd).
Defined.


Lemma score_and_level_bounds_witness :
  0 <= highScore (state squaresOver)
  /\ 1 <= level (state squaresOver)
  /\ 10 * (level (state squaresOver) - 1) <= score (state squaresOver)
  /\ (gameEnd (state squaresOver) = true ->
      score (state squaresOver) <= highScore (state squaresOver)).
Proof.
  apply (score_and_level_bounds squares squaresOver).
  exact squaresOver_reachable.
Defined.

Lemma top_row_witness :
  gameEnd (state squaresTopped) = false
  /\ isGameOver (gameBoard (state squaresTopped)) = Ok false.
Proof.
  split; [reflexivity|].
  apply (top_row_is_empty_while_running squares squaresTopped).
  - exact squaresTopped_reachable.
  - reflexivity.
Defined.

Lemma stackBlock_witness :
  exists board' s',
    stackBlock emptyBoard {| shape := [[1; 1]; [1; 1]]; x := 0; y := 18 |}
      (state squaresStart) = Ok (board', s')
    /\ boardOk board'
    /\ (forall boardY boardX,
          covers {| shape := [[1; 1]; [1; 1]]; x := 0; y := 18 |}
            boardY boardX ->
          cellAt board' boardY boardX = Some 1)
    /\ (forall boardY boardX,
          ~ covers {| shape := [[1; 1]; [1; 1]]; x := 0; y := 18 |}
              boardY boardX ->
          cellAt board' boardY boardX = cellAt emptyBoard boardY boardX)
    /\ score s' = score (state squaresStart) + 1.
Proof.
  apply (stackBlock_stamps_the_block emptyBoard
           {| shape := [[1; 1]; [1; 1]]; x := 0; y := 18 |}
           (state squaresStart)).
  - exact emptyBoard_ok.
  - apply square_blockOk; lia.
Defined.

Lemma horizontal_moves_witness :
  isValidMove (heap squaresStart) (state squaresStart) 0 0 = Ok true
  /\ isValidMove (heap squaresStart) (state squaresStart) 1 0 = Ok true
  /\ exists w1,
       reducer squares squaresStart (KeyboardEvent KeyD) = Ok w1
       /\ reducer squares w1 (KeyboardEvent KeyA) = Ok squaresStart.
Proof.
  split; [vm_compute; reflexivity|].
  split; [vm_compute; reflexivity|].
  apply (horizontal_moves_undo_each_other squares squaresStart);
    vm_compute; reflexivity.
Defined.

Lemma soft_drop_and_falling_tick_witness :
  exists cur w1 w2,
    activeBlock squaresStart = Some cur
    /\ reducer squares squaresStart (KeyboardEvent KeyS) = Ok w1
    /\ reducer squares squaresStart Tick = Ok w2
    /\ activeBlock w1 = Some (set_y (y cur + 1) cur)
    /\ activeBlock w2 = Some (set_y (y cur + 1) cur)
    /\ state w1 = state squaresStart
    /\ state w2
       = set_currentBlock (length (heap squaresStart)) (state squaresStart)
    /\ heap w1 !! currentBlock (state squaresStart)
       = Some (set_y (y cur + 1) cur)
    /\ heap w2 !! currentBlock (state squaresStart) = Some cur
    /\ draws w1 = draws squaresStart
    /\ draws w2 = draws squaresStart.
Proof.
  apply (soft_drop_and_falling_tick squares squaresStart).
  - reflexivity.
  - vm_compute; reflexivity.
Defined.

Lemma clearing_one_full_row_witness :
  gameBoard
    (clearFullRows
       (set_gameBoard (repeat emptyRow 19 ++ [repeat 1 10])
          (state squaresStart)))
  = emptyRow :: repeat emptyRow 19 ++ []
  /\ Spec.resolveClears (repeat emptyRow 19 ++ [repeat 1 10])
     = (emptyRow :: repeat emptyRow 19 ++ [], 1%nat).
Proof.
  destruct (clearing_at_most_one_full_row
              (set_gameBoard (repeat emptyRow 19 ++ [repeat 1 10])
                 (state squaresStart)) eq_refl) as [_ Hone].
  apply (Hone (repeat emptyRow 19) (repeat 1 10) []); reflexivity.
Defined.

Lemma clearing_keeps_dimensions_witness :
  boardOk
    (gameBoard
       (clearFullRows
          (set_gameBoard (repeat emptyRow 19 ++ [repeat 1 10])
             (state squaresStart))))
  /\ (1 <= fullRowCount (repeat emptyRow 19 ++ [repeat 1 10]) ->
      gameBoard
        (clearFullRows
           (set_gameBoard (repeat emptyRow 19 ++ [repeat 1 10])
              (state squaresStart))) !! 0%nat
      = Some emptyRow).
Proof.
  apply (clearing_keeps_dimensions
           (set_gameBoard (repeat emptyRow 19 ++ [repeat 1 10])
              (state squaresStart))).
  exact oneFullRow_ok.
Defined.

Lemma createRandomBlock_line_at_6_witness :
  exists r1 r2,
    Double.unit_interval r1
    /\ Double.unit_interval r2
    /\ createRandomBlock r1 r2
       = Ok {| shape := [[1; 1; 1; 1]]; x := 6; y := 0 |}.
Proof.
  apply (createRandomBlock_reaches_every_spawn [[1; 1; 1; 1]] [1; 1; 1; 1] 6).
  - right; left; reflexivity.
  - reflexivity.
  - vm_compute. split; discriminate.
Defined.

Lemma isValidMove_no_rows_witness :
  isValidMove (heap squaresStart) (set_gameBoard [] (state squaresStart)) 0 0
  = TypeError.
Proof.
  apply (isValidMove_throws_on_missing_rows (heap squaresStart)
           (set_gameBoard [] (state squaresStart))
           {| shape := [[1; 1]; [1; 1]]; x := 0; y := 0 |} 0 0).
  - reflexivity.
  - intros rowIndex colIndex row Hr Hc. cbn [x y gameBoard set_gameBoard
                                             length].
    unfold Constants.GRID_WIDTH, Constants.GRID_HEIGHT.
    destruct rowIndex as [|[|rowIndex]]; simpl in Hr; try discriminate Hr;
      inversion Hr; subst row;
      destruct colIndex as [|[|colIndex]]; simpl in Hc;
      try discriminate Hc; lia.
  - exists 0%nat, 0%nat, [1; 1]. split; reflexivity.
Defined.

Lemma tick_agrees_witness :
  tick squares squaresStart = reducer squares squaresStart Tick.
Proof.
  apply (tick_agrees_with_reducer_unless_landing squares squaresStart).
  right. vm_compute. reflexivity.
Defined.

Lemma tick_landing_witness :
  exists w',
    tick squares squaresDropped = Ok w'
    /\ score (state w') = score (state squaresDropped)
    /\ draws w' = S (S (S (S (draws squaresDropped)))).
Proof.
  destruct (tick_landing_draws_two_blocks squares squaresDropped
              (repeat emptyRow 18
               ++ repeat [1; 1; 0; 0; 0; 0; 0; 0; 0; 0] 2) false)
    as (w' & nb1 & nb2 & Hrun & _ & _ & _ & _ & _ & _ & _ & Hs & _ & _ & _
        & Hd).
  - reflexivity.
  - vm_compute; reflexivity.
  - vm_compute; reflexivity.
  - vm_compute; reflexivity.
  - exact squares_unit.
  - exists w'. exact (conj Hrun (conj Hs Hd)).
Defined.

Lemma renderCurrentBlock_witness :
  renderCurrentBlock (heap squaresStart) (state squaresStart) []
  = Ok ([] ++ map (fun p => cellRect (fst p + 0) (snd p + 0))
                (onesOfRows [[1; 1]; [1; 1]] 0 0)).
Proof.
  apply (renderCurrentBlock_draws_the_block (heap squaresStart)
           (state squaresStart) []
           {| shape := [[1; 1]; [1; 1]]; x := 0; y := 0 |}).
  reflexivity.
Defined.

(** ** The next block and its preview *)

(** X18. A tick that locks the current block without ending the game
    promotes the previewed block: the new current block is the object that
    was the next block, a block newly drawn from the factory with two
    random values becomes the next block, [nextBlockShape] is its shape,
    and the board is the stacked board after the clearing loop. *)
Theorem tick_landing_promotes_next_block (random : nat -> Z) (w : World)
    (board : list (list Z)) :
  gameEnd (state w) = false ->
  isValidMove (heap w) (state w) 0 1 = Ok false ->
  lockedBoard (heap w) (state w) = Ok board ->
  isGameOver board = Ok false ->
  Double.unit_interval (random (draws w)) ->
  Double.unit_interval (random (S (draws w))) ->
  exists w' newNextBlock,
    reducer random w Tick = Ok w'
    /\ createRandomBlock (random (draws w)) (random (S (draws w)))
       = Ok newNextBlock
    /\ currentBlock (state w') = nextBlock (state w)
    /\ heap w' = heap w ++ [newNextBlock]
    /\ heap w' !! nextBlock (state w') = Some newNextBlock
    /\ nextBlockShape (state w') = shape newNextBlock
    /\ gameBoard (state w')
       = gameBoard (clearFullRows (set_gameBoard board (state w)))
    /\ gameEnd (state w') = false
    /\ draws w' = S (S (draws w)).
Proof.
  intros Hend Hvalid Hlock Hover Hr1 Hr2.
  destruct (createRandomBlock_spawn _ _ Hr1 Hr2) as (nb & _ & Hnb & _).
  eexists. exists nb. split.
  { rewrite (reducer_tick_lock random w board false Hend Hvalid Hlock Hover).
    cbv zeta. rewrite Hnb. cbn [bind]. reflexivity. }
  split; [exact Hnb|].
  destruct (landed_refs (state w) board false) as (_ & Hn & _ & _ & Hge).
  cbn [state heap draws gameEnd gameBoard currentBlock nextBlock
       nextBlockShape set_nextBlockShape set_nextBlock set_currentBlock].
  rewrite Hn, Hge, Hend.
  split; [reflexivity|]. split; [reflexivity|].
  split.
  { rewrite lookup_app_r by lia. rewrite Nat.sub_diag. reflexivity. }
  split; [reflexivity|].
  split; [|split; reflexivity].
  unfold landed. cbn [negb]. unfold clearFullRows.
  cbn [gameBoard set_score set_gameBoard].
  generalize (rev board) 0.
  intros rows yy.
  assert (Hgen : forall s1 s2, gameBoard s1 = gameBoard s2 ->
                   gameBoard (clearLoop rows yy s1)
                   = gameBoard (clearLoop rows yy s2)).
  { clear. revert yy. induction rows as [|row rest IH]; intros yy s1 s2 H.
    - exact H.
    - cbn [clearLoop]. apply IH.
      destruct (isFullRow row); [|exact H].
      unfold clearRow. cbn [gameBoard set_gameBoard set_score set_level].
      rewrite H. reflexivity. }
  apply Hgen. reflexivity.
Qed.

Lemma lookup_same_shape (h : list Block) (r r' : nat) (b b' : Block) :
  h !! r = Some b ->
  shape b' = shape b ->
  forall c, h !! r' = Some c ->
            exists c', <[r := b']> h !! r' = Some c' /\ shape c' = shape c.
Proof.
  intros Hr Hshape c Hc.
  destruct (Nat.eq_dec r r') as [->|Hne].
  - exists b'. split.
    + apply list_lookup_insert_eq. eapply lookup_lt_Some. exact Hc.
    + rewrite Hr in Hc. inversion Hc. subst c. exact Hshape.
  - exists c. split; [|reflexivity].
    rewrite list_lookup_insert_ne by exact Hne. exact Hc.
Qed.

(** X19. In every reachable world the preview is truthful:
    [nextBlockShape] is the shape of the block [nextBlock] refers to, also
    after a restart, which takes both from the initial state. *)
Theorem preview_shows_next_block (random : nat -> Z) (w : World) :
  reachable random w ->
  exists next,
    heap w !! nextBlock (state w) = Some next
    /\ nextBlockShape (state w) = shape next.
Proof.
  intros Hw.
  assert (Hinv :
            (exists next,
               heap w !! nextBlock (state w) = Some next
               /\ nextBlockShape (state w) = shape next)
            /\ (forall fresh,
                  restartGame random = Ok fresh ->
                  exists next,
                    heap w !! nextBlock fresh = Some next
                    /\ nextBlockShape fresh = shape next));
    [|exact (proj1 Hinv)].
  induction Hw as [w Hmain|w e w' _ IH Hstep].
  - assert (Hnext : exists next,
               heap w !! nextBlock (state w) = Some next
               /\ nextBlockShape (state w) = shape next).
    { unfold main, initialStateWithNextShape, initialState, deref in Hmain.
      destruct (createRandomBlock (random 0%nat) (random 1%nat))
        as [b0| |]; try discriminate Hmain.
      destruct (createRandomBlock (random 2%nat) (random 3%nat))
        as [b1| |]; try discriminate Hmain.
      cbn in Hmain. inversion Hmain. cbn. eauto. }
    split; [exact Hnext|].
    intros fresh Hfresh.
    destruct (main_state random w Hmain) as (_ & _ & _ & _ & _ & _ & _ & _
                                             & Hrestart).
    rewrite Hrestart in Hfresh. inversion Hfresh. exact Hnext.
  - destruct IH as [(next & Hnext & Hshape) Hfresh].
    apply reducer_inv in Hstep
      as [->
         |[(dx & dy & cur & _ & Hcur & _ & ->)
         |[(fresh & _ & _ & _ & Hf & ->)
         |[(cur & _ & _ & _ & _ & ->)
         |(board & over & _ & _ & _ & _ & _ & Hcase)]]]].
    + split; [eauto | exact Hfresh].
    + cbn [state heap]. split.
      * destruct (lookup_same_shape (heap w) (currentBlock (state w))
                    (nextBlock (state w)) cur
                    {| shape := shape cur; x := x cur + dx;
                       y := y cur + dy |} Hcur eq_refl next Hnext)
          as (c' & Hc' & Hs').
        exists c'. split; [exact Hc' | congruence].
      * intros fresh Hf. destruct (Hfresh fresh Hf) as (n1 & Hn1 & Hs1).
        destruct (lookup_same_shape (heap w) (currentBlock (state w))
                    (nextBlock fresh) cur
                    {| shape := shape cur; x := x cur + dx;
                       y := y cur + dy |} Hcur eq_refl n1 Hn1)
          as (c' & Hc' & Hs').
        exists c'. split; [exact Hc' | congruence].
    + cbn [state heap nextBlock nextBlockShape set_highScore
           set_canRestart].
      split; [exact (Hfresh fresh Hf) | exact Hfresh].
    + cbn [state heap nextBlock nextBlockShape set_currentBlock]. split.
      * exists next. split; [|exact Hshape].
        rewrite lookup_app_l by (eapply lookup_lt_Some; exact Hnext).
        exact Hnext.
      * intros fresh Hf. destruct (Hfresh fresh Hf) as (n1 & Hn1 & Hs1).
        exists n1. split; [|exact Hs1].
        rewrite lookup_app_l by (eapply lookup_lt_Some; exact Hn1).
        exact Hn1.
    + cbv zeta in Hcase.
      destruct (landed_refs (state w) board over) as (_ & Hn & _).
      assert (Hshape' : nextBlockShape (landed (state w) board over)
                        = nextBlockShape (state w)).
      { unfold landed, clearFullRows.
        match goal with
        | |- context [clearLoop ?rows ?yy ?s0] =>
            destruct (clearLoop_other_fields rows yy s0)
              as (_ & _ & _ & -> & _)
        end.
        destruct over; reflexivity. }
      destruct Hcase as [(-> & ->)|(-> & nb & _ & ->)].
      * cbn [state heap nextBlock nextBlockShape set_highScore
             set_canRestart set_gameEnd].
        rewrite Hn, Hshape'. split; [eauto | exact Hfresh].
      * cbn [state heap nextBlock nextBlockShape set_nextBlockShape
             set_nextBlock set_currentBlock].
        split.
        -- exists nb. split; [|reflexivity].
           rewrite lookup_app_r by lia. rewrite Nat.sub_diag. reflexivity.
        -- intros fresh Hf. destruct (Hfresh fresh Hf) as (n1 & Hn1 & Hs1).
           exists n1. split; [|exact Hs1].
           rewrite lookup_app_l by (eapply lookup_lt_Some; exact Hn1).
           exact Hn1.
Qed.

Lemma tick_landing_promotes_witness :
  exists w' newNextBlock,
    reducer squares squaresDropped Tick = Ok w'
    /\ createRandomBlock (squares (draws squaresDropped))
         (squares (S (draws squaresDropped))) = Ok newNextBlock
    /\ currentBlock (state w') = nextBlock (state squaresDropped)
    /\ heap w' = heap squaresDropped ++ [newNextBlock].
Proof.
  destruct (tick_landing_promotes_next_block squares squaresDropped
              (repeat emptyRow 18
               ++ repeat [1; 1; 0; 0; 0; 0; 0; 0; 0; 0] 2))
    as (w' & nb & Hrun & Hnb & Hc & Hh & _).
  - reflexivity.
  - vm_compute; reflexivity.
  - vm_compute; reflexivity.
  - vm_compute; reflexivity.
  - apply squares_unit.
  - apply squares_unit.
  - exists w', nb. exact (conj Hrun (conj Hnb (conj Hc Hh))).
Defined.

Lemma preview_witness :
  exists next,
    heap squaresOver !! nextBlock (state squaresOver) = Some next
    /\ nextBlockShape (state squaresOver) = shape next.
Proof.
  apply (preview_shows_next_block squares squaresOver).
  exact squaresOver_reachable.
Defined.
